(** * Retail customer segmentation: the analysis script, embedded and verified

    The program is [retail_analysis_script.py], one linear pandas script.  Its
    tables are embedded as lists of records, its pandas, scikit-learn and
    numpy calls as the list functions that implement their documented
    behaviour, and the exceptions those calls raise as a [result] type.

    Conventions of the embedding:
    - a timestamp (datetime64[ns]) is a [Z], the nanoseconds since the epoch;
      dates are taken inside pandas' representable range, so adding one day
      stays inside it;
    - a floating-point column is a [Q], the rational a double denotes, with
      [==] as equality.  In steps 2.1, 2.2 and 3 to 6 the sums, means and
      quantiles of such columns are the exact ones.  Step 2.3 and the total
      of line 189, where sums are compared with each other, have float64
      values ([float]), round as binary64 does ([binary64], [np_round]) and
      take the library's summation of a float column as a parameter;
    - identifiers are integers; every cell of every column holds a value
      (no missing data), but for a product category that [read_csv] takes
      as missing ([isna]), which step 2.3 drops. *)

From Stdlib Require Import String Bool List ZArith QArith Qround Lia Lqa.
From Stdlib Require Import Permutation Sorted Arith Ascii.
From Stdlib Require Import DecimalString DecimalPos DecimalZ.
Import ListNotations.

Local Open Scope string_scope.
Local Open Scope list_scope.
Local Open Scope Z_scope.

(** ** Exceptions *)

(** The two exceptions the modelled steps can raise; both are Python
    [ValueError]s. *)
Inductive exn : Type :=
| BinEdgesMustBeUnique      (* pd.qcut: "Bin edges must be unique" *)
| TooFewSamples.            (* KMeans: "n_samples=.. should be >= n_clusters=.." *)

Inductive result (A : Type) : Type :=
| Ok (a : A)
| Raise (e : exn).
Arguments Ok {A} a.
Arguments Raise {A} e.

Definition bind {A B} (r : result A) (k : A -> result B) : result B :=
  match r with
  | Ok a => k a
  | Raise e => Raise e
  end.

Notation "x <- r ;; k" := (bind r (fun x => k))
  (at level 61, r at next level, right associativity).

(** ** Input tables *)

Module Customer.
Record row : Type := mk
  { customer_id : Z;
    join_date : Z;
    customer_age : Z;
    gender : string;
    location : string }.
End Customer.

Module Product.
Record row : Type := mk
  { product_id : Z;
    product_category : string }.
End Product.

Module Transaction.
Record row : Type := mk
  { transaction_id : Z;
    customer_id : Z;
    product_id : Z;
    transaction_date : Z;
    quantity : Z;
    total_amount : Q }.
End Transaction.

(** ** Generic table operations *)

(** [DataFrame.merge(right, on=key)] with the default [how='inner']: each
    left row, in order, is paired with every right row carrying the same
    key; a left row without a partner produces nothing. *)
Definition merge {L R : Type} (lkey : L -> Z) (rkey : R -> Z)
    (left : list L) (right : list R) : list (L * R) :=
  flat_map (fun l => map (fun r => (l, r))
                         (filter (fun r => lkey l =? rkey r) right)) left.

Section Sort.
Context {A : Type} (leb : A -> A -> bool).

Fixpoint insert_sorted (x : A) (l : list A) : list A :=
  match l with
  | [] => [x]
  | y :: t => if leb x y then x :: l else y :: insert_sorted x t
  end.

(** A stable sort by [leb]. *)
Definition sort_by (l : list A) : list A := fold_right insert_sorted [] l.
End Sort.

Section GroupBy.
Context {A K : Type} (eqb leb : K -> K -> bool) (key : A -> K).

Fixpoint unique (ks : list K) : list K :=
  match ks with
  | [] => []
  | k :: t => k :: filter (fun k' => negb (eqb k' k)) (unique t)
  end.

(** The group keys of [groupby(key)]: the distinct keys, sorted
    ([sort=True] is the default). *)
Definition group_keys (rows : list A) : list K :=
  sort_by leb (unique (map key rows)).

(** [DataFrame.groupby(key)]: one group per distinct key, holding the rows
    of that key in their original order. *)
Definition groupby (rows : list A) : list (K * list A) :=
  map (fun k => (k, filter (fun r => eqb (key r) k) rows)) (group_keys rows).
End GroupBy.

Definition Qsum (l : list Q) : Q := fold_right Qplus 0%Q l.
Definition Zsum (l : list Z) : Z := fold_right Z.add 0 l.

Definition Qlen {A} (l : list A) : Q := inject_Z (Z.of_nat (length l)).

(** [Series.mean()]. *)
Definition Qmean (l : list Q) : Q := (Qsum l / Qlen l)%Q.

Definition Qlt_bool (a b : Q) : bool := negb (Qle_bool b a).

(** [np.rint]: round to the nearest integer, ties to the even one. *)
Definition rint (q : Q) : Z :=
  let f := Qfloor q in
  let r := (q - inject_Z f)%Q in
  if Qlt_bool r (1 # 2) then f
  else if Qlt_bool (1 # 2) r then f + 1
  else if Z.even f then f else f + 1.

(** [DataFrame.round(decimals)] on one cell: scale, [rint], scale back. *)
Definition round (decimals : nat) (q : Q) : Q :=
  let scale := inject_Z (10 ^ Z.of_nat decimals) in
  (inject_Z (rint (q * scale)) / scale)%Q.

(** ** Step 1: the joined sales data (line 39) *)

(** A row of [sales_data]; the columns are kept grouped by the table they
    come from.  The key columns of the joined row are those of the
    transaction. *)
Record sales_row : Type := mk_sales
  { txn : Transaction.row;
    cust : Customer.row;
    prod : Product.row }.

Definition customer_id (s : sales_row) : Z := Transaction.customer_id (txn s).
Definition transaction_date (s : sales_row) : Z := Transaction.transaction_date (txn s).
Definition total_amount (s : sales_row) : Q := Transaction.total_amount (txn s).
Definition quantity (s : sales_row) : Z := Transaction.quantity (txn s).
Definition product_category (s : sales_row) : string := Product.product_category (prod s).

Definition sales_data (transactions_df : list Transaction.row)
    (customers_df : list Customer.row) (products_df : list Product.row)
    : list sales_row :=
  map (fun tcp => mk_sales (fst (fst tcp)) (snd (fst tcp)) (snd tcp))
      (merge (fun tc => Transaction.product_id (fst tc)) Product.product_id
             (merge Transaction.customer_id Customer.customer_id
                    transactions_df customers_df)
             products_df).

(** ** Binary floating point and 64-bit integers *)

(** The binary exponent of a positive rational: [2^e <= n/d < 2^(e+1)]. *)
Definition binary_exponent (n d : positive) : Z :=
  let e := Z.log2 (Zpos n) - Z.log2 (Zpos d) in
  if Qlt_bool (Zpos n # d) (Qpower 2 e) then e - 1 else e.

(** The nearest number with 53 significant bits and an exponent from -1022
    on (subnormal numbers below), ties to the even significand: the double
    nearest to a rational, as long as it is in range. *)
Definition nearest_double (q : Q) : Q :=
  match Qnum q with
  | 0 => 0%Q
  | Zpos n | Zneg n =>
    let ulp := Qpower 2 (Z.max (binary_exponent n (Qden q)) (-1022) - 52) in
    Qred (inject_Z (rint (q / ulp)) * ulp)
  end.

(** A float64 value: a number, given by the rational it denotes (the two
    zeros are one), an infinity or NaN. *)
Inductive float : Type :=
| Finite (q : Q)
| Infinity (negative : bool)
| NaN.

(** Rounding to binary64: a result of magnitude 2^1024 or more overflows to
    the infinity of its sign. *)
Definition binary64 (q : Q) : float :=
  let r := nearest_double q in
  let top := Qpower 2 1024 in
  if Qle_bool top r then Infinity false
  else if Qle_bool r (- top) then Infinity true
  else Finite r.

(** The float64 addition: the exact sum, rounded once. *)
Definition fadd (a b : float) : float :=
  match a, b with
  | NaN, _ | _, NaN => NaN
  | Infinity s, Infinity s' => if Bool.eqb s s' then Infinity s else NaN
  | Infinity s, Finite _ | Finite _, Infinity s => Infinity s
  | Finite x, Finite y => binary64 (x + y)
  end.

(** Multiplication and division by a positive number. *)
Definition fmul (a : float) (scale : Q) : float :=
  match a with
  | Finite x => binary64 (x * scale)
  | _ => a
  end.

Definition fdiv (a : float) (scale : Q) : float :=
  match a with
  | Finite x => binary64 (x / scale)
  | _ => a
  end.

(** [np.rint] on a float64. *)
Definition frint (a : float) : float :=
  match a with
  | Finite x => Finite (inject_Z (rint x))
  | _ => a
  end.

(** [DataFrame.round(decimals)] on a float64 cell, which is [np.round]:
    [np.true_divide(np.rint(a * 10**decimals), 10**decimals)]. *)
Definition np_round (decimals : nat) (a : float) : float :=
  let scale := inject_Z (10 ^ Z.of_nat decimals) in
  fdiv (frint (fmul a scale)) scale.

(** The comparison [a == b] of two float64 values. *)
Definition float_eqb (a b : float) : bool :=
  match a, b with
  | Finite x, Finite y => Qeq_bool x y
  | Infinity s, Infinity s' => Bool.eqb s s'
  | _, _ => false
  end.

(** The order of a descending sort: [a] may stand before [b] when [a >= b],
    and NaN stands behind every number ([na_position='last']). *)
Definition float_geb (a b : float) : bool :=
  match a, b with
  | _, NaN => true
  | NaN, _ => false
  | Infinity false, _ => true
  | _, Infinity true => true
  | Infinity true, _ => false
  | Finite _, Infinity false => false
  | Finite x, Finite y => Qle_bool y x
  end.

(** An int64 result: additions wrap around silently. *)
Definition wrap_int64 (z : Z) : Z := (z + 2 ^ 63) mod 2 ^ 64 - 2 ^ 63.

(** ** Missing categories *)

(** The cell texts that [pd.read_csv] reads as a missing value (its default
    [na_values]). *)
Definition na_values : list string :=
  [ ""; "#N/A"; "#N/A N/A"; "#NA"; "-1.#IND"; "-1.#QNAN"; "-NaN"; "-nan";
    "1.#IND"; "1.#QNAN"; "<NA>"; "N/A"; "NA"; "NULL"; "NaN"; "None"; "n/a";
    "nan"; "null" ].

Definition isna (cell : string) : bool := existsb (String.eqb cell) na_values.

(** [groupby] leaves out the rows whose key is missing ([dropna=True] is
    the default). *)
Definition dropna {A} (key : A -> string) (rows : list A) : list A :=
  filter (fun r => negb (isna (key r))) rows.

(** ** Step 2.3: category performance (lines 77-83) and total revenue (line 189) *)

Record category_row : Type := mk_category
  { category : string;
    total_revenue : float;
    avg_order_value : float;
    transaction_count : Z;
    total_quantity : Z }.

(** [sort_values('total_revenue', ascending=False)]. *)
Definition revenue_desc (a b : category_row) : bool :=
  float_geb (total_revenue a) (total_revenue b).

Section FloatSums.
(** What the embedding leaves open: the order, the blocking and the error
    compensation with which pandas adds up the float64 cells of a group
    ([sum] and [mean] of a [groupby]) and numpy those of a whole column
    ([Series.sum]). *)
Variable group_sum : list Q -> float.
Variable group_mean : list Q -> float.
Variable series_sum : list Q -> float.

(** The four aggregates of one group, the float columns rounded by
    [.round(2)]; the integer columns are left as they are. *)
Definition category_agg (g : string * list sales_row) : category_row :=
  {| category := fst g;
     total_revenue := np_round 2 (group_sum (map total_amount (snd g)));
     avg_order_value := np_round 2 (group_mean (map total_amount (snd g)));
     transaction_count := Z.of_nat (length (snd g));
     total_quantity := wrap_int64 (Zsum (map quantity (snd g))) |}.

Definition category_performance (sales : list sales_row) : list category_row :=
  sort_by revenue_desc
    (map category_agg
         (groupby String.eqb String.leb product_category
                  (dropna product_category sales))).

Definition grand_total_revenue (sales : list sales_row) : float :=
  series_sum (map total_amount sales).
End FloatSums.

(** Addition from left to right, starting from 0.  Both library sums return
    this on a column of one or two cells (0 + a is exact, and a + b is
    rounded once whatever the order or the compensation); it stands for
    them on such columns. *)
Definition float_sum (l : list float) : float := fold_left fadd l (Finite 0).
Definition column_sum (l : list Q) : float := float_sum (map Finite l).
Definition column_mean (l : list Q) : float := fdiv (column_sum l) (Qlen l).

(** ** Step 3: RFM metrics (lines 92-103) *)

(** [pd.Timedelta(days=1)] in nanoseconds. *)
Definition one_day : Z := 86400 * 10 ^ 9.

(** [Timedelta.days]: whole days, rounded down. *)
Definition days (td : Z) : Z := td / one_day.

(** [Series.max()] of a timestamp column; [None] is NaT (empty column). *)
Definition max_date (ds : list Z) : option Z :=
  match ds with
  | [] => None
  | d :: t => Some (fold_left Z.max t d)
  end.

Definition snapshot_date (sales : list sales_row) : option Z :=
  option_map (fun m => m + one_day) (max_date (map transaction_date sales)).

Record rfm_metrics : Type := mk_metrics
  { m_customer_id : Z;
    recency : Z;
    frequency : Z;
    monetary : Q }.

(** The three aggregations of one group.  A group is never empty, so the
    NaT branch is not taken. *)
Definition rfm_agg (snapshot : Z) (g : Z * list sales_row) : rfm_metrics :=
  {| m_customer_id := fst g;
     recency := match max_date (map transaction_date (snd g)) with
                | Some last => days (snapshot - last)
                | None => 0
                end;
     frequency := Z.of_nat (length (snd g));
     monetary := Qsum (map total_amount (snd g)) |}.

(** Lines 94-100.  The snapshot date is NaT only for empty sales data, where
    there is no group to aggregate. *)
Definition rfm_groupby (sales : list sales_row) : list rfm_metrics :=
  match snapshot_date sales with
  | Some snapshot => map (rfm_agg snapshot) (groupby Z.eqb Z.leb customer_id sales)
  | None => []
  end.

Record rfm_row : Type := mk_rfm
  { metrics : rfm_metrics;
    rfm_age : Z;
    rfm_gender : string;
    rfm_location : string }.

Definition rfm_customer_id (r : rfm_row) : Z := m_customer_id (metrics r).

(** Line 103: the customer attributes are merged in. *)
Definition rfm (sales : list sales_row) (customers_df : list Customer.row)
    : list rfm_row :=
  map (fun mc => mk_rfm (fst mc) (Customer.customer_age (snd mc))
                        (Customer.gender (snd mc)) (Customer.location (snd mc)))
      (merge m_customer_id Customer.customer_id (rfm_groupby sales) customers_df).

(** ** Step 3: quintile scores (lines 110-112) *)

(** [np.linspace(0, 1, q + 1)]. *)
Definition linspace (q : nat) : list Q :=
  map (fun i => Z.of_nat i # Pos.of_nat q) (seq 0 (q + 1)).

(** [Series.quantile(p)] with linear interpolation, on the sorted values. *)
Definition quantile (sorted : list Q) (p : Q) : Q :=
  let n := length sorted in
  let h := (inject_Z (Z.of_nat n - 1) * p)%Q in
  let lo := Z.to_nat (Qfloor h) in
  let hi := Nat.min (lo + 1) (n - 1) in
  let gamma := (h - inject_Z (Qfloor h))%Q in
  (nth lo sorted 0 + gamma * (nth hi sorted 0 - nth lo sorted 0))%Q.

Definition bin_edges (x : list Q) (q : nat) : list Q :=
  map (quantile (sort_by Qle_bool x)) (linspace q).

Fixpoint all_distinct (l : list Q) : bool :=
  match l with
  | [] => true
  | e :: t => negb (existsb (Qeq_bool e) t) && all_distinct t
  end.

(** [bins.searchsorted(v, side='left')], then [ids[x == bins[0]] = 1]
    ([include_lowest]). *)
Definition bin_id (bins : list Q) (v : Q) : nat :=
  if Qeq_bool v (hd 0%Q bins) then 1%nat
  else length (filter (fun e => Qlt_bool e v) bins).

(** The label of a bin; 0 stands for NaN, the value of a cell outside every
    bin. *)
Definition bin_label (labels : list Z) (id : nat) : Z :=
  match id with
  | O => 0
  | S i => nth i labels 0
  end.

(** [pd.qcut(x, q, labels=labels)], with the default [duplicates='raise'].
    The quantiles of an empty column are all NaN, which counts as duplicate
    edges. *)
Definition qcut (x : list Q) (q : nat) (labels : list Z) : result (list Z) :=
  let bins := bin_edges x q in
  match x with
  | [] => Raise BinEdgesMustBeUnique
  | _ =>
    if all_distinct bins
    then Ok (map (fun v => bin_label labels (bin_id bins v)) x)
    else Raise BinEdgesMustBeUnique
  end.

Definition count_if {A} (f : A -> bool) (l : list A) : Z :=
  Z.of_nat (length (filter f l)).

(** [Series.rank(method='first')]: one plus the number of smaller values,
    plus the number of equal values that occur earlier. *)
Fixpoint rank_from (all earlier rest : list Z) : list Z :=
  match rest with
  | [] => []
  | v :: t =>
    (1 + count_if (fun w => w <? v) all + count_if (fun w => w =? v) earlier)
      :: rank_from all (v :: earlier) t
  end.

Definition rank_first (x : list Z) : list Z := rank_from x [] x.

Record scored_row : Type := mk_scored
  { base : rfm_row;
    r_score : Z;
    f_score : Z;
    m_score : Z }.

Fixpoint zip_scores (rows : list rfm_row) (r f m : list Z) : list scored_row :=
  match rows, r, f, m with
  | row :: rows', r1 :: r', f1 :: f', m1 :: m' =>
    mk_scored row r1 f1 m1 :: zip_scores rows' r' f' m'
  | _, _, _, _ => []
  end.

Definition recency_column (t : list rfm_row) : list Q :=
  map (fun r => inject_Z (recency (metrics r))) t.
Definition frequency_rank_column (t : list rfm_row) : list Q :=
  map inject_Z (rank_first (map (fun r => frequency (metrics r)) t)).
Definition monetary_column (t : list rfm_row) : list Q :=
  map (fun r => monetary (metrics r)) t.

Definition r_scores (t : list rfm_row) : result (list Z) :=
  qcut (recency_column t) 5 [5; 4; 3; 2; 1].
Definition f_scores (t : list rfm_row) : result (list Z) :=
  qcut (frequency_rank_column t) 5 [1; 2; 3; 4; 5].
Definition m_scores (t : list rfm_row) : result (list Z) :=
  qcut (monetary_column t) 5 [1; 2; 3; 4; 5].

Definition score_rfm (t : list rfm_row) : result (list scored_row) :=
  r <- r_scores t ;;
  f <- f_scores t ;;
  m <- m_scores t ;;
  Ok (zip_scores t r f m).

(** ** Step 4: clustering (lines 121-131) and segment names (lines 134-146) *)

Definition point : Type := (Q * Q * Q)%type.

Definition features (t : list scored_row) : list point :=
  map (fun s => (inject_Z (recency (metrics (base s))),
                 inject_Z (frequency (metrics (base s))),
                 monetary (metrics (base s)))) t.

Definition sq_dist (a b : point) : Q :=
  let '(a1, a2, a3) := a in
  let '(b1, b2, b3) := b in
  ((a1 - b1) * (a1 - b1) + (a2 - b2) * (a2 - b2) + (a3 - b3) * (a3 - b3))%Q.

(** The index of the nearest centre, the first one on a tie; [i] is the
    index of the head of [centres], [best] the nearest centre so far. *)
Fixpoint nearest_from (x : point) (centres : list point) (i : nat)
    (best : nat) (best_d : Q) : nat :=
  match centres with
  | [] => best
  | c :: t =>
    if Qlt_bool (sq_dist x c) best_d
    then nearest_from x t (S i) i (sq_dist x c)
    else nearest_from x t (S i) best best_d
  end.

Definition nearest (x : point) (c0 : point) (others : list point) : nat :=
  nearest_from x others 1%nat 0%nat (sq_dist x c0).

Definition optimal_k : nat := 4.

Section KMeans.
(** What the embedding leaves open: [StandardScaler.fit] (a square root)
    gives a per-row transformation computed from the whole table, and the
    seeded k-means++ / Lloyd iterations of [KMeans.fit] give the four
    centres. *)
Variable scaler : list point -> point -> point.
Variable fit : list point -> point * point * point * point.

(** [KMeans(n_clusters=4, random_state=42, n_init=10).fit_predict(X_scaled)]:
    fewer samples than clusters is a [ValueError]; otherwise every sample
    gets the index of its nearest centre. *)
Definition fit_predict (X_scaled : list point) : result (list Z) :=
  if (length X_scaled <? optimal_k)%nat then Raise TooFewSamples
  else
    let '(c0, c1, c2, c3) := fit X_scaled in
    Ok (map (fun x => Z.of_nat (nearest x c0 [c1; c2; c3])) X_scaled).

Definition cluster (t : list scored_row) : result (list Z) :=
  let X := features t in
  fit_predict (map (scaler X) X).
End KMeans.

Definition assign_segment_name (row : scored_row) : string :=
  if (r_score row >=? 4) && (f_score row >=? 4) && (m_score row >=? 4)
  then "Champions"
  else if (r_score row >=? 3) && (f_score row >=? 3)
  then "Loyal Customers"
  else if (r_score row >=? 4) && (f_score row <=? 2)
  then "Potential Loyalists"
  else if r_score row <=? 2
  then "At Risk"
  else "Others".

Record segmented_row : Type := mk_segmented
  { scored : scored_row;
    cluster_label : Z;
    segment_name : string }.

Definition add_cluster_and_segment (t : list scored_row) (labels : list Z)
    : list segmented_row :=
  map (fun sl => mk_segmented (fst sl) (snd sl) (assign_segment_name (fst sl)))
      (combine t labels).

(** ** Segment profile (lines 149-158) *)

Record profile_row : Type := mk_profile
  { segment : string;
    avg_recency : Q;
    avg_frequency : Q;
    avg_monetary : Q;
    customer_count : Z;
    avg_age : Q;
    percentage : Q }.

Definition seg_metrics (s : segmented_row) : rfm_metrics := metrics (base (scored s)).

Definition profile_agg (total : nat) (g : string * list segmented_row) : profile_row :=
  let rows := snd g in
  let count := Z.of_nat (length rows) in
  {| segment := fst g;
     avg_recency := round 2 (Qmean (map (fun s => inject_Z (recency (seg_metrics s))) rows));
     avg_frequency := round 2 (Qmean (map (fun s => inject_Z (frequency (seg_metrics s))) rows));
     avg_monetary := round 2 (Qmean (map (fun s => monetary (seg_metrics s)) rows));
     customer_count := count;
     avg_age := round 2 (Qmean (map (fun s => inject_Z (rfm_age (base (scored s)))) rows));
     percentage := round 1 (inject_Z count / inject_Z (Z.of_nat total) * 100)%Q |}.

Definition segment_profile (t : list segmented_row) : list profile_row :=
  map (profile_agg (length t)) (groupby String.eqb String.leb segment_name t).

(** ** The segmentation pipeline, lines 39-158 *)

Section Pipeline.
Variable scaler : list point -> point -> point.
Variable fit : list point -> point * point * point * point.

Definition segment_customers (transactions_df : list Transaction.row)
    (customers_df : list Customer.row) (products_df : list Product.row)
    : result (list segmented_row) :=
  let sales := sales_data transactions_df customers_df products_df in
  let table := rfm sales customers_df in
  t <- score_rfm table ;;
  labels <- cluster scaler fit t ;;
  Ok (add_cluster_and_segment t labels).
End Pipeline.

(** ** Sample data *)

(** Midnight of day [n] after the epoch. *)
Definition day (n : Z) : Z := n * one_day.

Definition sample_customers : list Customer.row :=
  [ Customer.mk 1 (day 18000) 34 "F" "Austin";
    Customer.mk 2 (day 18100) 51 "M" "Boston";
    Customer.mk 3 (day 18200) 27 "F" "Denver" ].

Definition sample_products : list Product.row :=
  [ Product.mk 10 "Books"; Product.mk 20 "Toys" ].

(** Transaction 104 names a customer and transaction 105 a product that do
    not exist. *)
Definition sample_transactions : list Transaction.row :=
  [ Transaction.mk 100 1 10 (day 19000) 1 (1999 # 100);
    Transaction.mk 101 2 20 (day 19003) 2 (500 # 100);
    Transaction.mk 102 1 20 (day 19010) 1 (250 # 100);
    Transaction.mk 103 3 10 (day 19004) 3 (6000 # 100);
    Transaction.mk 104 9 10 (day 19020) 1 (100 # 100);
    Transaction.mk 105 2 99 (day 19021) 1 (100 # 100) ].

Definition sample_sales : list sales_row :=
  sales_data sample_transactions sample_customers sample_products.

(** [m] is the largest element of [l]. *)
Definition is_max (m : Z) (l : list Z) : Prop :=
  In m l /\ forall x, In x l -> x <= m.

(** ** The segment rules as the specification words them *)

(** The rule list of the specification, in its order: a guard on
    (r_score, f_score, m_score) and the label it gives. *)
Definition segment_rules : list ((Z -> Z -> Z -> bool) * string) :=
  [ (fun r f m => (4 <=? r) && (4 <=? f) && (4 <=? m), "Champions");
    (fun r f m => (3 <=? r) && (3 <=? f), "Loyal Customers");
    (fun r f m => (4 <=? r) && (f <=? 2), "Potential Loyalists");
    (fun r f m => r <=? 2, "At Risk") ].

(** First matching rule wins; [otherwise] when none matches. *)
Fixpoint first_match (rules : list ((Z -> Z -> Z -> bool) * string))
    (otherwise : string) (r f m : Z) : string :=
  match rules with
  | [] => otherwise
  | (guard, label) :: rest =>
    if guard r f m then label else first_match rest otherwise r f m
  end.

Definition segment_labels : list string :=
  ["Champions"; "Loyal Customers"; "Potential Loyalists"; "At Risk"; "Others"].

Definition with_scores (r f m : Z) : scored_row :=
  mk_scored (mk_rfm (mk_metrics 0 0 0 0) 0 "" "") r f m.

(** A scaler and a fit to run the clustering step on: no rescaling, and the
    first four samples as centres. *)
Definition identity_scaler (X : list point) (x : point) : point := x.

Definition first_four (X : list point) : point * point * point * point :=
  let o : point := (0, 0, 0)%Q in
  (nth 0 X o, nth 1 X o, nth 2 X o, nth 3 X o).

Definition sample_scored : list scored_row :=
  map (fun v => mk_scored (mk_rfm (mk_metrics v v v (inject_Z v)) 30 "F" "Austin") 1 1 1)
      [1; 2; 3; 4; 5].

(** Two sales of 0.004 each (the doubles read from that text), in two
    different categories. *)
Definition subcent_transactions : list Transaction.row :=
  [ Transaction.mk 200 1 10 (day 19000) 1 (nearest_double (4 # 1000));
    Transaction.mk 201 2 20 (day 19001) 1 (nearest_double (4 # 1000)) ].

Definition subcent_sales : list sales_row :=
  sales_data subcent_transactions sample_customers sample_products.

(** Two sales of 0.10 and 0.20, both of books. *)
Definition cents_transactions : list Transaction.row :=
  [ Transaction.mk 210 1 10 (day 19000) 1 (nearest_double (10 # 100));
    Transaction.mk 211 2 10 (day 19001) 1 (nearest_double (20 # 100)) ].

Definition cents_sales : list sales_row :=
  sales_data cents_transactions sample_customers sample_products.

(** A products file in which the category of product 20 is the text None,
    and three sales, the last two of that product. *)
Definition unnamed_products : list Product.row :=
  [ Product.mk 10 "Books"; Product.mk 20 "None" ].

Definition unnamed_sales : list sales_row :=
  sales_data
    [ Transaction.mk 220 1 10 (day 19000) 2 (nearest_double (500 # 100));
      Transaction.mk 221 2 20 (day 19001) 1 (nearest_double (250 # 100));
      Transaction.mk 222 3 20 (day 19002) 4 (nearest_double (125 # 100)) ]
    sample_customers unnamed_products.

(** Two sales of books with quantities whose sum leaves the int64 range. *)
Definition bulk_sales : list sales_row :=
  sales_data
    [ Transaction.mk 230 1 10 (day 19000) (2 ^ 62) (nearest_double (100 # 100));
      Transaction.mk 231 2 10 (day 19001) (2 ^ 62) (nearest_double (100 # 100)) ]
    sample_customers sample_products.

(** ** Bin populations *)

(** The number of rows holding a given score. *)
Definition bin_population (score : Z) (scores : list Z) : Z :=
  count_if (Z.eqb score) scores.


Definition row_recency (s : scored_row) : Z := recency (metrics (base s)).
Definition row_frequency (s : scored_row) : Z := frequency (metrics (base s)).
Definition row_monetary (s : scored_row) : Q := monetary (metrics (base s)).

(** ** A table with tied recencies *)

(** Sixteen customers with one purchase each; customer [i] buys for [i]
    units, [r - 1] days before the last purchase of the table, where [r] is
    the i-th entry of this list. *)
Definition tied_recencies : list Z :=
  [1; 2; 2; 2; 2; 2; 3; 3; 3; 4; 4; 4; 5; 5; 5; 6].

Definition tied_ids : list Z := map Z.of_nat (seq 1 16).

Definition tied_customers : list Customer.row :=
  map (fun i => Customer.mk i (day 18000) 40 "F" "Austin") tied_ids.

Definition tied_transactions : list Transaction.row :=
  map (fun ir => Transaction.mk (1000 + fst ir) (fst ir) 10
                                (day (19101 - snd ir)) 1 (inject_Z (fst ir)))
      (combine tied_ids tied_recencies).

Definition tied_rfm : list rfm_row :=
  rfm (sales_data tied_transactions tied_customers sample_products) tied_customers.

Definition scored_or_empty (r : result (list scored_row)) : list scored_row :=
  match r with
  | Ok scored => scored
  | Raise _ => []
  end.

Definition tied_scored : list scored_row := scored_or_empty (score_rfm tied_rfm).

(** ** Tables that cannot, or can just, be binned *)

(** Three customers who all bought on the same day: one recency value. *)
Definition same_day_transactions : list Transaction.row :=
  [ Transaction.mk 300 1 10 (day 19000) 1 (1000 # 100);
    Transaction.mk 301 2 20 (day 19000) 1 (2000 # 100);
    Transaction.mk 302 3 10 (day 19000) 1 (3000 # 100) ].

Definition same_day_rfm : list rfm_row :=
  rfm (sales_data same_day_transactions sample_customers sample_products)
      sample_customers.

(** Two customers, two recencies, two amounts. *)
Definition two_customer_transactions : list Transaction.row :=
  [ Transaction.mk 400 1 10 (day 19000) 1 (1000 # 100);
    Transaction.mk 401 2 20 (day 19009) 1 (2000 # 100) ].

Definition two_customer_rfm : list rfm_row :=
  rfm (sales_data two_customer_transactions sample_customers sample_products)
      sample_customers.


(** Five customers with one purchase each, 1, 2, 2, 3 and 4 days before
    the snapshot date: four distinct recencies. *)
Definition gap_recencies : list Z := [1; 2; 2; 3; 4].

Definition gap_transactions : list Transaction.row :=
  map (fun ir => Transaction.mk (3000 + fst ir) (fst ir) 10
                                (day (19101 - snd ir)) 1 (inject_Z (fst ir)))
      (combine [1; 2; 3; 4; 5] gap_recencies).

Definition gap_rfm : list rfm_row :=
  rfm (sales_data gap_transactions tied_customers sample_products) tied_customers.

(** ** A table without ties *)

(** The same sixteen customers, customer [i] buying [i - 1] days before the
    last purchase of the table, for [3 i] units. *)
Definition spread_transactions : list Transaction.row :=
  map (fun i => Transaction.mk (2000 + i) i 20 (day (19100 - i)) 1 (inject_Z (3 * i)))
      tied_ids.

Definition spread_rfm : list rfm_row :=
  rfm (sales_data spread_transactions tied_customers sample_products) tied_customers.

Definition spread_scored : list scored_row := scored_or_empty (score_rfm spread_rfm).

(** * The rest of the script *)

(** ** Step 1: derived columns (lines 42-44) *)

(** Year and month of the day [d] days after 1970-01-01, in the proleptic
    Gregorian calendar: what [.dt.year] and [.dt.month] read off a
    timestamp.  The count runs over 400-year eras that start on 1 March. *)
Definition civil_year_month (d : Z) : Z * Z :=
  let z := d + 719468 in
  let era := z / 146097 in
  let doe := z - era * 146097 in
  let yoe := (doe - doe / 1460 + doe / 36524 - doe / 146096) / 365 in
  let doy := doe - (365 * yoe + yoe / 4 - yoe / 100) in
  let mp := (5 * doy + 2) / 153 in
  let m := if mp <? 10 then mp + 3 else mp - 9 in
  (yoe + era * 400 + (if m <=? 2 then 1 else 0), m).

Definition transaction_month (s : sales_row) : Z :=
  snd (civil_year_month (days (transaction_date s))).

Definition transaction_year (s : sales_row) : Z :=
  fst (civil_year_month (days (transaction_date s))).

Definition customer_tenure_days (s : sales_row) : Z :=
  days (transaction_date s - Customer.join_date (cust s)).

(** ** Step 2.1: monthly sales (lines 53-55) *)

(** [Series.astype(str)] on integers. *)
Definition astype_str (z : Z) : string :=
  DecimalString.NilZero.string_of_int (Z.to_int z).

Fixpoint zeros (n : nat) : string :=
  match n with
  | O => EmptyString
  | S n' => String "0" (zeros n')
  end.

(** [Series.str.zfill(width)] on unsigned digits. *)
Definition zfill (width : nat) (s : string) : string :=
  zeros (width - String.length s) ++ s.

Module MonthlySales.
Record row : Type := mk
  { year : Z;
    month : Z;
    total_revenue : Q;
    transaction_count : Z;
    period : string }.
End MonthlySales.

Definition year_month (s : sales_row) : Z * Z :=
  (transaction_year s, transaction_month s).

Definition pair_eqb (a b : Z * Z) : bool :=
  (fst a =? fst b) && (snd a =? snd b).

(** The order of a two-column group key. *)
Definition pair_leb (a b : Z * Z) : bool :=
  (fst a <? fst b) || ((fst a =? fst b) && (snd a <=? snd b)).

Definition monthly_agg (g : (Z * Z) * list sales_row) : MonthlySales.row :=
  {| MonthlySales.year := fst (fst g);
     MonthlySales.month := snd (fst g);
     MonthlySales.total_revenue := Qsum (map total_amount (snd g));
     MonthlySales.transaction_count := Z.of_nat (length (snd g));
     MonthlySales.period :=
       astype_str (fst (fst g)) ++ "-" ++ zfill 2 (astype_str (snd (fst g))) |}.

Definition monthly_sales (sales : list sales_row) : list MonthlySales.row :=
  map monthly_agg (groupby pair_eqb pair_leb year_month sales).

(** ** Step 2.2: customer summary (lines 61-69) *)

(** [Series.min()] of a timestamp column; [None] is NaT. *)
Definition min_date (ds : list Z) : option Z :=
  match ds with
  | [] => None
  | d :: t => Some (fold_left Z.min t d)
  end.

Module CustomerSummary.
Record row : Type := mk
  { customer_id : Z;
    transaction_count : Z;
    total_spent : Q;
    avg_order_value : Q;
    first_purchase : option Z;
    last_purchase : option Z;
    category_diversity : Z }.
End CustomerSummary.

(** The aggregations of one group; [round(2)] changes the two float
    columns only. *)
Definition customer_agg (g : Z * list sales_row) : CustomerSummary.row :=
  {| CustomerSummary.customer_id := fst g;
     CustomerSummary.transaction_count := Z.of_nat (length (snd g));
     CustomerSummary.total_spent := round 2 (Qsum (map total_amount (snd g)));
     CustomerSummary.avg_order_value := round 2 (Qmean (map total_amount (snd g)));
     CustomerSummary.first_purchase := min_date (map transaction_date (snd g));
     CustomerSummary.last_purchase := max_date (map transaction_date (snd g));
     CustomerSummary.category_diversity :=
       Z.of_nat (length (unique String.eqb (map product_category (snd g)))) |}.

Definition customer_summary (sales : list sales_row) : list CustomerSummary.row :=
  map customer_agg (groupby Z.eqb Z.leb customer_id sales).

(** ** Step 3: the combined score (line 115) *)

Definition rfm_score (s : scored_row) : string :=
  astype_str (r_score s) ++ astype_str (f_score s) ++ astype_str (m_score s).

(** Reading the combined score back: one decimal digit per score. *)
Definition digit_value (c : Ascii.ascii) : option Z :=
  let n := Z.of_nat (Ascii.nat_of_ascii c) - 48 in
  if (0 <=? n) && (n <=? 9) then Some n else None.

Definition read_rfm_score (code : string) : option (Z * Z * Z) :=
  match code with
  | String a (String b (String c EmptyString)) =>
    match digit_value a, digit_value b, digit_value c with
    | Some r, Some f, Some m => Some (r, f, m)
    | _, _, _ => None
    end
  | _ => None
  end.

(** ** Step 5: the samples of the variance test (lines 167-168) *)

(** One array of monetary values per segment name, the names in their order
    of first appearance ([Series.unique]). *)
Definition segment_spending (t : list segmented_row) : list (list Q) :=
  map (fun name =>
         map (fun s => monetary (seg_metrics s))
             (filter (fun s => String.eqb (segment_name s) name) t))
      (unique String.eqb (map segment_name t)).

(** ** Step 6: key business metrics (lines 189-193) *)

Module Insights.
(** [sales_data['customer_id'].nunique()]. *)
Definition total_customers (sales : list sales_row) : Z :=
  Z.of_nat (length (unique Z.eqb (map customer_id sales))).

Definition avg_order_value (sales : list sales_row) : Q :=
  Qmean (map total_amount sales).

(** [len(rfm[rfm['frequency'] > 1])]. *)
Definition repeat_customers (table : list rfm_row) : Z :=
  count_if (fun r => frequency (metrics r) >? 1) table.

(** Python's division of two integers; [None] is its ZeroDivisionError. *)
Definition repeat_rate (sales : list sales_row) (table : list rfm_row) : option Q :=
  if total_customers sales =? 0 then None
  else Some (inject_Z (repeat_customers table)
             / inject_Z (total_customers sales) * 100)%Q.
End Insights.

(** ** Sample rows of the remaining tables *)

(** [m] is the smallest element of [l]. *)
Definition is_min (m : Z) (l : list Z) : Prop :=
  In m l /\ forall x, In x l -> m <= x.

(** The tied table with every customer in cluster 0. *)
Definition tied_segmented : list segmented_row :=
  add_cluster_and_segment tied_scored (repeat 0 16).

Definition at_risk_profile : profile_row :=
  profile_agg 16 ("At Risk",
                  filter (fun s => String.eqb (segment_name s) "At Risk") tied_segmented).

(** * Properties *)

(** ** Sorting, distinct keys and groups *)

Section SortFacts.
Context {A : Type} (leb : A -> A -> bool).

Lemma insert_sorted_perm (x : A) (l : list A) :
  Permutation (insert_sorted leb x l) (x :: l).
Proof.
  induction l as [|y t IH]; simpl.
  - apply Permutation_refl.
  - destruct (leb x y).
    + apply Permutation_refl.
    + eapply Permutation_trans; [apply perm_skip, IH | apply perm_swap].
Qed.

Lemma sort_by_perm (l : list A) : Permutation (sort_by leb l) l.
Proof.
  induction l as [|x t IH]; simpl.
  - constructor.
  - eapply Permutation_trans; [apply insert_sorted_perm | now apply perm_skip].
Qed.

Lemma sort_by_In (l : list A) (x : A) : In x (sort_by leb l) <-> In x l.
Proof.
  split; apply Permutation_in;
    [apply sort_by_perm | apply Permutation_sym, sort_by_perm].
Qed.

Lemma sort_by_length (l : list A) : length (sort_by leb l) = length l.
Proof. apply Permutation_length, sort_by_perm. Qed.

(** With a total order test, the output is ordered. *)
Hypothesis leb_total : forall a b, leb a b = true \/ leb b a = true.
Hypothesis leb_trans : forall a b c, leb a b = true -> leb b c = true -> leb a c = true.

Lemma insert_sorted_sorted (x : A) (l : list A) :
  StronglySorted (fun a b => leb a b = true) l ->
  StronglySorted (fun a b => leb a b = true) (insert_sorted leb x l).
Proof.
  induction 1 as [|y t Hs IH Hy]; simpl.
  - repeat constructor.
  - destruct (leb x y) eqn:E.
    + constructor; [now constructor|].
      constructor; [exact E|].
      rewrite Forall_forall in *. intros z Hz. eauto.
    + constructor; [exact IH|].
      rewrite Forall_forall in *. intros z Hz.
      apply (Permutation_in _ (insert_sorted_perm x t)) in Hz.
      destruct Hz as [<-|Hz]; [|now apply Hy].
      destruct (leb_total x y) as [H|H]; [congruence|exact H].
Qed.

Lemma sort_by_sorted (l : list A) :
  StronglySorted (fun a b => leb a b = true) (sort_by leb l).
Proof.
  induction l as [|x t IH]; simpl.
  - constructor.
  - now apply insert_sorted_sorted.
Qed.
End SortFacts.

Section GroupFacts.
Context {A K : Type} (eqb leb : K -> K -> bool) (key : A -> K).
Hypothesis eqb_eq : forall a b, eqb a b = true <-> a = b.

Lemma unique_In (ks : list K) (k : K) : In k (unique eqb ks) <-> In k ks.
Proof.
  induction ks as [|k0 t IH]; simpl; [tauto|].
  rewrite filter_In, IH, negb_true_iff.
  destruct (eqb k k0) eqn:E.
  - apply eqb_eq in E. subst. intuition congruence.
  - assert (k0 <> k) by (intros ->; rewrite (proj2 (eqb_eq k k)) in E; congruence).
    intuition congruence.
Qed.

Lemma unique_NoDup (ks : list K) : NoDup (unique eqb ks).
Proof.
  induction ks as [|k0 t IH]; simpl; constructor.
  - rewrite filter_In, negb_true_iff.
    intros [_ E]. now rewrite (proj2 (eqb_eq k0 k0)) in E.
  - now apply NoDup_filter.
Qed.

Lemma group_keys_In (rows : list A) (k : K) :
  In k (group_keys eqb leb key rows) <-> In k (map key rows).
Proof. unfold group_keys. now rewrite sort_by_In, unique_In. Qed.

Lemma group_keys_NoDup (rows : list A) : NoDup (group_keys eqb leb key rows).
Proof.
  unfold group_keys.
  eapply Permutation_NoDup; [apply Permutation_sym, sort_by_perm|].
  apply unique_NoDup.
Qed.

Lemma groupby_keys (rows : list A) :
  map fst (groupby eqb leb key rows) = group_keys eqb leb key rows.
Proof. unfold groupby. rewrite map_map. simpl. apply map_id. Qed.

Lemma groupby_In (rows : list A) (k : K) (g : list A) :
  In (k, g) (groupby eqb leb key rows) ->
  In k (map key rows) /\ g = filter (fun r => eqb (key r) k) rows.
Proof.
  unfold groupby. rewrite in_map_iff. intros (k' & E & Hk).
  inversion E; subst. split; [now apply group_keys_In | reflexivity].
Qed.

(** Every group holds at least one row. *)
Lemma group_nonempty (rows : list A) (k : K) :
  In k (map key rows) -> filter (fun r => eqb (key r) k) rows <> [].
Proof.
  rewrite in_map_iff. intros (r & E & Hr) Hnil.
  assert (Hin : In r (filter (fun r => eqb (key r) k) rows)).
  { apply filter_In. split; [exact Hr | now apply eqb_eq]. }
  rewrite Hnil in Hin. exact Hin.
Qed.

(** The groups partition the rows: an additive integer measure of the
    table is the sum of the measures of its groups. *)
Lemma Zsum_indicator (ks : list K) (k0 : K) (v : Z) :
  NoDup ks -> In k0 ks ->
  Zsum (map (fun k => if eqb k0 k then v else 0) ks) = v.
Proof.
  induction 1 as [|k t Hk Hnd IH]; simpl; [tauto|].
  intros [->|Hin].
  - rewrite (proj2 (eqb_eq k0 k0) eq_refl).
    assert (E : Zsum (map (fun k => if eqb k0 k then v else 0) t) = 0).
    { clear IH Hnd. induction t as [|k' t' IHt]; simpl; [reflexivity|].
      destruct (eqb k0 k') eqn:E.
      - apply eqb_eq in E. subst. exfalso. apply Hk. now left.
      - rewrite IHt; [reflexivity|]. intros H. apply Hk. now right. }
    lia.
  - destruct (eqb k0 k) eqn:E.
    + apply eqb_eq in E. subst. contradiction.
    + now rewrite IH.
Qed.

Lemma Zsum_groups (val : A -> Z) (ks : list K) (rows : list A) :
  NoDup ks -> (forall r, In r rows -> In (key r) ks) ->
  Zsum (map (fun k => Zsum (map val (filter (fun r => eqb (key r) k) rows))) ks)
  = Zsum (map val rows).
Proof.
  intros Hnd. induction rows as [|r t IH]; intros Hcov; simpl.
  - clear Hnd Hcov. induction ks as [|k ks' IHk]; simpl; [reflexivity|].
    now rewrite IHk.
  - rewrite <- IH by (intros; apply Hcov; now right).
    assert (Hr : Zsum (map (fun k => if eqb (key r) k then val r else 0) ks) = val r).
    { apply Zsum_indicator; [exact Hnd | apply Hcov; now left]. }
    transitivity
      (Zsum (map (fun k => if eqb (key r) k then val r else 0) ks)
       + Zsum (map (fun k => Zsum (map val (filter (fun r => eqb (key r) k) t))) ks));
      [|now rewrite Hr].
    clear IH Hcov Hnd Hr. induction ks as [|k ks' IHk]; simpl; [reflexivity|].
    rewrite IHk. destruct (eqb (key r) k); simpl; lia.
Qed.

Lemma Zsum_ones {B} (l : list B) : Zsum (map (fun _ => 1) l) = Z.of_nat (length l).
Proof.
  induction l as [|x t IH]; [reflexivity|].
  change (1 + Zsum (map (fun _ : B => 1) t) = Z.of_nat (S (length t))).
  rewrite IH. lia.
Qed.

Lemma group_sizes (rows : list A) :
  Zsum (map (fun g => Z.of_nat (length (snd g))) (groupby eqb leb key rows))
  = Z.of_nat (length rows).
Proof.
  unfold groupby. rewrite map_map. simpl.
  rewrite <- (Zsum_ones rows).
  rewrite <- (Zsum_groups (fun _ => 1) (group_keys eqb leb key rows) rows).
  - f_equal. apply map_ext. intros k. now rewrite Zsum_ones.
  - apply group_keys_NoDup.
  - intros r Hr. apply group_keys_In. now apply in_map.
Qed.
End GroupFacts.

(** ** The inner join *)

Section MergeFacts.
Context {L R : Type} (lkey : L -> Z) (rkey : R -> Z).

Lemma merge_In (left : list L) (right : list R) (l : L) (r : R) :
  In (l, r) (merge lkey rkey left right) <->
  In l left /\ In r right /\ lkey l = rkey r.
Proof.
  unfold merge. rewrite in_flat_map. split.
  - intros (l' & Hl & H). apply in_map_iff in H.
    destruct H as (r' & E & Hr). inversion E; subst.
    apply filter_In in Hr. destruct Hr as [Hr Hk].
    apply Z.eqb_eq in Hk. auto.
  - intros (Hl & Hr & Hk). exists l. split; [exact Hl|].
    apply in_map, filter_In. split; [exact Hr | now apply Z.eqb_eq].
Qed.

Lemma filter_unique_key (right : list R) (k : Z) :
  NoDup (map rkey right) -> In k (map rkey right) ->
  exists r, filter (fun r => k =? rkey r) right = [r].
Proof.
  induction right as [|r0 t IH]; simpl; [tauto|].
  intros Hnd Hin. inversion Hnd as [|? ? Hnot Hnd']; subst.
  destruct (k =? rkey r0) eqn:E.
  - apply Z.eqb_eq in E. subst k. exists r0. f_equal.
    clear IH Hin Hnd Hnd'. induction t as [|r1 t' IHt]; simpl; [reflexivity|].
    simpl in Hnot. destruct (rkey r0 =? rkey r1) eqn:E1.
    + apply Z.eqb_eq in E1. exfalso. apply Hnot. left. congruence.
    + apply IHt. intros H. apply Hnot. now right.
  - apply Z.eqb_neq in E. destruct Hin as [Hin|Hin]; [congruence|].
    now apply IH.
Qed.

(** With unique keys on the right, each matched left row is kept exactly
    once, in order. *)
Lemma merge_unique (left : list L) (right : list R) :
  NoDup (map rkey right) ->
  (forall l, In l left -> In (lkey l) (map rkey right)) ->
  map fst (merge lkey rkey left right) = left.
Proof.
  intros Hnd. induction left as [|l t IH]; intros Hcov; [reflexivity|].
  unfold merge. simpl. rewrite map_app. fold (merge lkey rkey t right).
  rewrite IH by (intros; apply Hcov; now right).
  destruct (filter_unique_key right (lkey l) Hnd (Hcov l (or_introl eq_refl)))
    as [r ->].
  reflexivity.
Qed.
End MergeFacts.

Lemma Zeqb_eq_iff (a b : Z) : (a =? b) = true <-> a = b.
Proof. apply Z.eqb_eq. Qed.

Lemma sales_data_In (ts : list Transaction.row) (cs : list Customer.row)
    (ps : list Product.row) (s : sales_row) :
  In s (sales_data ts cs ps) <->
  In (txn s) ts /\ In (cust s) cs /\ In (prod s) ps /\
  Transaction.customer_id (txn s) = Customer.customer_id (cust s) /\
  Transaction.product_id (txn s) = Product.product_id (prod s).
Proof.
  unfold sales_data. rewrite in_map_iff. split.
  - intros ([[t c] p] & E & H). subst s. simpl.
    apply merge_In in H. destruct H as (H & Hp & Hk). simpl in Hk.
    apply merge_In in H. tauto.
  - intros (Ht & Hc & Hp & Hkc & Hkp). exists (txn s, cust s, prod s).
    split; [now destruct s|].
    apply merge_In. simpl. split; [|auto]. apply merge_In. auto.
Qed.

(** ** Recency *)

Lemma fold_left_max_ge (l : list Z) (d : Z) :
  d <= fold_left Z.max l d /\ forall x, In x l -> x <= fold_left Z.max l d.
Proof.
  revert d. induction l as [|y t IH]; intros d; simpl.
  - split; [lia | tauto].
  - destruct (IH (Z.max d y)) as [H1 H2]. split; [lia|].
    intros x [->|Hx]; [lia | now apply H2].
Qed.

Lemma fold_left_max_In (l : list Z) (d : Z) :
  fold_left Z.max l d = d \/ In (fold_left Z.max l d) l.
Proof.
  revert d. induction l as [|y t IH]; intros d; simpl; [now left|].
  destruct (IH (Z.max d y)) as [H|H]; [|now right; right].
  rewrite H. destruct (Z.max_spec d y) as [[_ ->]|[_ ->]]; auto.
Qed.

Lemma max_date_is_max (l : list Z) (m : Z) : max_date l = Some m -> is_max m l.
Proof.
  destruct l as [|d t]; simpl; [discriminate|].
  intros E. inversion E; subst. split.
  - destruct (fold_left_max_In t d) as [->|H]; [now left | now right].
  - destruct (fold_left_max_ge t d) as [H1 H2].
    intros x [->|Hx]; [exact H1 | now apply H2].
Qed.

Lemma max_date_nonempty (l : list Z) : l <> [] -> exists m, max_date l = Some m.
Proof. destruct l; [congruence | simpl; eauto]. Qed.

Lemma one_day_pos : 0 < one_day.
Proof. reflexivity. Qed.

Lemma snapshot_date_NaT (sales : list sales_row) :
  snapshot_date sales = None -> sales = [].
Proof. destruct sales; [reflexivity | discriminate]. Qed.

Lemma rfm_groupby_keys (sales : list sales_row) :
  map m_customer_id (rfm_groupby sales) = group_keys Z.eqb Z.leb customer_id sales.
Proof.
  unfold rfm_groupby. destruct (snapshot_date sales) as [snapshot|] eqn:E.
  - rewrite map_map. apply groupby_keys.
  - now rewrite (snapshot_date_NaT _ E).
Qed.

Lemma rfm_groupby_frequency (sales : list sales_row) :
  map frequency (rfm_groupby sales)
  = map (fun g => Z.of_nat (length (snd g))) (groupby Z.eqb Z.leb customer_id sales).
Proof.
  unfold rfm_groupby. destruct (snapshot_date sales) as [snapshot|] eqn:E.
  - now rewrite map_map.
  - now rewrite (snapshot_date_NaT _ E).
Qed.

(** The recency of every row of the aggregated table. *)
Lemma rfm_groupby_recency (sales : list sales_row) (r : rfm_metrics) :
  In r (rfm_groupby sales) ->
  exists snapshot latest last,
    snapshot_date sales = Some snapshot /\
    snapshot = latest + one_day /\
    is_max latest (map transaction_date sales) /\
    is_max last (map transaction_date
                   (filter (fun s => customer_id s =? m_customer_id r) sales)) /\
    recency r = days (snapshot - last).
Proof.
  unfold rfm_groupby, snapshot_date.
  destruct (max_date (map transaction_date sales)) as [latest|] eqn:E;
    simpl; [|tauto].
  rewrite in_map_iff. intros ([k g] & <- & Hg).
  apply (groupby_In _ _ _ Zeqb_eq_iff) in Hg. destruct Hg as [Hk ->].
  simpl.
  destruct (max_date_nonempty
              (map transaction_date (filter (fun s => customer_id s =? k) sales)))
    as [last El].
  { intros Hnil. apply map_eq_nil in Hnil.
    now apply (group_nonempty Z.eqb customer_id Zeqb_eq_iff sales k). }
  rewrite El. exists (latest + one_day), latest, last.
  repeat split; try reflexivity;
    try (now apply max_date_is_max in E; destruct E);
    try (now apply max_date_is_max in El; destruct El).
Qed.

(** ** The RFM table *)

(** With unique customer identifiers, merging the customer attributes in
    (line 103) keeps every aggregated row exactly once. *)
Lemma rfm_metrics_column (ts : list Transaction.row) (cs : list Customer.row)
    (ps : list Product.row) :
  NoDup (map Customer.customer_id cs) ->
  map metrics (rfm (sales_data ts cs ps) cs) = rfm_groupby (sales_data ts cs ps).
Proof.
  intros Hnd. unfold rfm. rewrite map_map. simpl.
  rewrite <- (map_map fst (fun m => m)), map_id.
  apply merge_unique; [exact Hnd|].
  intros m Hm. apply (in_map m_customer_id) in Hm.
  rewrite rfm_groupby_keys in Hm.
  apply (group_keys_In _ _ _ Zeqb_eq_iff) in Hm.
  apply in_map_iff in Hm. destruct Hm as (s & <- & Hs).
  apply sales_data_In in Hs. destruct Hs as (_ & Hc & _ & Hk & _).
  unfold customer_id. rewrite Hk. now apply in_map.
Qed.

(** C1: with unique customer identifiers in the customers input, the RFM
    table holds exactly one row per distinct customer identifier of the
    joined sales data: no identifier is repeated in the table, and an
    identifier is in the table exactly when it occurs in the sales data. *)
Theorem rfm_one_row_per_customer (ts : list Transaction.row)
    (cs : list Customer.row) (ps : list Product.row) :
  NoDup (map Customer.customer_id cs) ->
  NoDup (map rfm_customer_id (rfm (sales_data ts cs ps) cs)) /\
  forall c, In c (map customer_id (sales_data ts cs ps)) <->
            In c (map rfm_customer_id (rfm (sales_data ts cs ps) cs)).
Proof.
  intros Hnd.
  assert (E : map rfm_customer_id (rfm (sales_data ts cs ps) cs)
              = group_keys Z.eqb Z.leb customer_id (sales_data ts cs ps)).
  { unfold rfm_customer_id. rewrite <- (map_map metrics m_customer_id).
    rewrite (rfm_metrics_column ts cs ps Hnd). apply rfm_groupby_keys. }
  rewrite E. split.
  - apply (group_keys_NoDup _ _ _ Zeqb_eq_iff).
  - intros c. symmetry. apply (group_keys_In _ _ _ Zeqb_eq_iff).
Qed.

Lemma sample_customers_unique : NoDup (map Customer.customer_id sample_customers).
Proof. repeat constructor; simpl; intuition discriminate. Qed.

Lemma rfm_one_row_per_customer_witness :
  NoDup (map Customer.customer_id sample_customers) /\
  NoDup (map rfm_customer_id (rfm sample_sales sample_customers)) /\
  forall c, In c (map customer_id sample_sales) <->
            In c (map rfm_customer_id (rfm sample_sales sample_customers)).
Proof.
  split; [exact sample_customers_unique|].
  exact (rfm_one_row_per_customer sample_transactions sample_customers
           sample_products sample_customers_unique).
Defined.

(** C5: the frequencies of the aggregated RFM table (lines 94-100) add up to
    the number of rows of the joined sales data. *)
Theorem frequency_sum_is_row_count (sales : list sales_row) :
  Zsum (map frequency (rfm_groupby sales)) = Z.of_nat (length sales).
Proof.
  rewrite rfm_groupby_frequency.
  apply (group_sizes _ _ _ Zeqb_eq_iff).
Qed.

(** The same count after the customer attributes are merged in. *)
Corollary rfm_frequency_sum (ts : list Transaction.row) (cs : list Customer.row)
    (ps : list Product.row) :
  NoDup (map Customer.customer_id cs) ->
  Zsum (map (fun r => frequency (metrics r)) (rfm (sales_data ts cs ps) cs))
  = Z.of_nat (length (sales_data ts cs ps)).
Proof.
  intros Hnd. rewrite <- (map_map metrics frequency).
  rewrite (rfm_metrics_column ts cs ps Hnd), rfm_groupby_frequency.
  apply (group_sizes _ _ _ Zeqb_eq_iff).
Qed.

(** C2: for every customer of the joined sales data, the recency of its RFM
    row is the number of whole days from the customer's latest transaction
    to the snapshot date, where the snapshot date is one day after the
    latest transaction of the whole table; hence recency is never
    negative. *)
Theorem recency_from_global_snapshot (sales : list sales_row) (c : Z) :
  In c (map customer_id sales) ->
  exists snapshot latest last,
    snapshot_date sales = Some snapshot /\
    snapshot = latest + one_day /\
    is_max latest (map transaction_date sales) /\
    is_max last (map transaction_date
                   (filter (fun s => customer_id s =? c) sales)) /\
    (exists r, In r (rfm_groupby sales) /\ m_customer_id r = c) /\
    forall r, In r (rfm_groupby sales) -> m_customer_id r = c ->
              recency r = days (snapshot - last) /\ 0 <= recency r.
Proof.
  intros Hc.
  assert (Hrow : exists r, In r (rfm_groupby sales) /\ m_customer_id r = c).
  { apply (group_keys_In Z.eqb Z.leb customer_id Zeqb_eq_iff) in Hc.
    rewrite <- rfm_groupby_keys in Hc. apply in_map_iff in Hc.
    destruct Hc as (r & E & Hr). eauto. }
  destruct Hrow as (r0 & Hr0 & E0).
  destruct (rfm_groupby_recency sales r0 Hr0)
    as (snapshot & latest & last & Hs & Hsl & Hlatest & Hlast & _).
  rewrite E0 in Hlast.
  exists snapshot, latest, last.
  split; [exact Hs|]. split; [exact Hsl|]. split; [exact Hlatest|].
  split; [exact Hlast|]. split; [exists r0; auto|].
  intros r Hr Er.
  destruct (rfm_groupby_recency sales r Hr)
    as (snapshot' & latest' & last' & Hs' & _ & _ & Hlast' & Hrec).
  rewrite Er in Hlast'. rewrite Hs in Hs'. inversion Hs'; subst snapshot'.
  assert (last' = last).
  { destruct Hlast as [Hi Hm], Hlast' as [Hi' Hm'].
    apply Z.le_antisymm; auto. }
  subst last'. split; [exact Hrec|].
  rewrite Hrec. unfold days. apply Z.div_pos; [|exact one_day_pos].
  destruct Hlatest as [_ Hmax], Hlast as [Hin _].
  apply in_map_iff in Hin. destruct Hin as (s & <- & Hin).
  apply filter_In in Hin. destruct Hin as [Hin _].
  specialize (Hmax (transaction_date s) (in_map _ _ _ Hin)).
  pose proof one_day_pos. lia.
Qed.

Lemma recency_from_global_snapshot_witness :
  In 2 (map customer_id sample_sales) /\
  exists snapshot latest last,
    snapshot_date sample_sales = Some snapshot /\
    snapshot = latest + one_day /\
    is_max latest (map transaction_date sample_sales) /\
    is_max last (map transaction_date
                   (filter (fun s => customer_id s =? 2) sample_sales)) /\
    (exists r, In r (rfm_groupby sample_sales) /\ m_customer_id r = 2) /\
    forall r, In r (rfm_groupby sample_sales) -> m_customer_id r = 2 ->
              recency r = days (snapshot - last) /\ 0 <= recency r.
Proof.
  assert (H : In 2 (map customer_id sample_sales)) by (vm_compute; tauto).
  split; [exact H|].
  exact (recency_from_global_snapshot sample_sales 2 H).
Defined.

(** C8: the join keeps a transaction exactly when its customer identifier
    occurs in the customers table and its product identifier occurs in the
    products table; every other transaction is left out.  [sales_data] is a
    total function: no input makes the join fail. *)
Theorem inner_join_drops_unmatched (ts : list Transaction.row)
    (cs : list Customer.row) (ps : list Product.row) (t : Transaction.row) :
  In t (map txn (sales_data ts cs ps)) <->
  In t ts /\
  In (Transaction.customer_id t) (map Customer.customer_id cs) /\
  In (Transaction.product_id t) (map Product.product_id ps).
Proof.
  rewrite in_map_iff. split.
  - intros (s & <- & Hs). apply sales_data_In in Hs.
    destruct Hs as (Ht & Hc & Hp & Hkc & Hkp).
    rewrite Hkc, Hkp. repeat split; [exact Ht | now apply in_map | now apply in_map].
  - intros (Ht & Hc & Hp).
    apply in_map_iff in Hc. destruct Hc as (c & Hkc & Hc).
    apply in_map_iff in Hp. destruct Hp as (p & Hkp & Hp).
    exists (mk_sales t c p). split; [reflexivity|].
    apply sales_data_In. simpl. auto.
Qed.

(** On the sample data, transactions 104 and 105 are dropped and the other
    four are kept, in order. *)
Example sample_join :
  map (fun s => Transaction.transaction_id (txn s)) sample_sales = [100; 101; 102; 103].
Proof. reflexivity. Qed.

(** ** Segment names *)

Lemma geb_leb (a b : Z) : (a >=? b) = (b <=? a).
Proof. apply Z.geb_leb. Qed.

Lemma assign_segment_name_cascade (row : scored_row) :
  assign_segment_name row
  = first_match segment_rules "Others" (r_score row) (f_score row) (m_score row).
Proof. unfold assign_segment_name. simpl. now rewrite !geb_leb. Qed.

Ltac split_scores :=
  repeat match goal with
         | |- context [?a <=? ?b] => destruct (Z.leb_spec a b)
         end.

(** C4: the segment name is a function of the three scores alone, namely
    the first matching rule of the ordered rule list, compared on the
    integer values; (5,5,5) is "Champions", (1,1,1) is "At Risk", (3,3,1) is
    "Loyal Customers"; each label is characterised by its rule and the
    failure of the earlier ones, and "Others" is what remains. *)
Theorem segment_name_first_match :
  (forall row,
     assign_segment_name row
     = first_match segment_rules "Others" (r_score row) (f_score row) (m_score row)) /\
  first_match segment_rules "Others" 5 5 5 = "Champions" /\
  first_match segment_rules "Others" 1 1 1 = "At Risk" /\
  first_match segment_rules "Others" 3 3 1 = "Loyal Customers" /\
  forall row,
    let r := r_score row in
    let f := f_score row in
    let m := m_score row in
    (assign_segment_name row = "Champions" <-> 4 <= r /\ 4 <= f /\ 4 <= m) /\
    (assign_segment_name row = "Loyal Customers" <->
       ~ (4 <= r /\ 4 <= f /\ 4 <= m) /\ 3 <= r /\ 3 <= f) /\
    (assign_segment_name row = "Potential Loyalists" <-> 4 <= r /\ f <= 2) /\
    (assign_segment_name row = "At Risk" <-> r <= 2) /\
    (assign_segment_name row = "Others" <-> r = 3 /\ f <= 2).
Proof.
  split; [exact assign_segment_name_cascade|].
  repeat (split; [reflexivity|]).
  intros row r f m. rewrite assign_segment_name_cascade.
  fold r f m. simpl.
  split_scores; simpl; repeat split; intros; try discriminate; try lia.
Qed.

(** ** Segment profile *)

Lemma String_eqb_eq_iff (a b : string) : String.eqb a b = true <-> a = b.
Proof. apply String.eqb_eq. Qed.

Lemma assign_segment_name_total (row : scored_row) :
  In (assign_segment_name row) segment_labels.
Proof.
  rewrite assign_segment_name_cascade. simpl.
  split_scores; simpl; tauto.
Qed.

Lemma segment_profile_counts (t : list segmented_row) :
  Zsum (map customer_count (segment_profile t)) = Z.of_nat (length t).
Proof.
  unfold segment_profile. rewrite map_map. simpl.
  apply (group_sizes _ _ _ String_eqb_eq_iff).
Qed.

(** ** Clustering *)

Lemma nearest_from_bound (x : point) (centres : list point) (i best : nat) (d : Q) :
  (best < i)%nat ->
  (nearest_from x centres i best d < i + length centres)%nat.
Proof.
  revert i best d. induction centres as [|c t IH]; intros i best d Hb; simpl.
  - lia.
  - destruct (Qlt_bool (sq_dist x c) d).
    + specialize (IH (S i) i (sq_dist x c)). lia.
    + specialize (IH (S i) best d). lia.
Qed.

Lemma nearest_bound (x c0 : point) (others : list point) :
  (nearest x c0 others < 1 + length others)%nat.
Proof. unfold nearest. apply nearest_from_bound. lia. Qed.

Lemma cluster_too_few (scaler : list point -> point -> point)
    (fit : list point -> point * point * point * point) (t : list scored_row) :
  (length t < optimal_k)%nat -> cluster scaler fit t = Raise TooFewSamples.
Proof.
  intros H. unfold cluster, fit_predict, features. rewrite !length_map.
  apply Nat.ltb_lt in H. now rewrite H.
Qed.

(** C7: with fewer than K = 4 rows the clustering step raises; otherwise it
    returns one label per row, each an integer in 0..3. *)
Theorem clustering_needs_k_customers
    (scaler : list point -> point -> point)
    (fit : list point -> point * point * point * point)
    (t : list scored_row) :
  optimal_k = 4%nat /\
  ((length t < optimal_k)%nat /\ cluster scaler fit t = Raise TooFewSamples \/
   (optimal_k <= length t)%nat /\
   exists labels,
     cluster scaler fit t = Ok labels /\
     length labels = length t /\
     Forall (fun l => 0 <= l < Z.of_nat optimal_k) labels).
Proof.
  split; [reflexivity|].
  destruct (Nat.lt_ge_cases (length t) optimal_k) as [H|H].
  - left. split; [exact H | now apply cluster_too_few].
  - right. split; [exact H|].
    unfold cluster, fit_predict, features. rewrite !length_map.
    apply Nat.ltb_ge in H. rewrite H.
    match goal with |- context [fit ?X] => destruct (fit X) as [[[c0 c1] c2] c3] end.
    eexists. split; [reflexivity|]. split.
    + now rewrite !length_map.
    + apply Forall_forall. intros l Hl. apply in_map_iff in Hl.
      destruct Hl as (x & <- & _).
      pose proof (nearest_bound x c0 [c1; c2; c3]) as Hn. simpl in Hn.
      unfold optimal_k. lia.
Qed.

(** A table of three customers is refused, one of five is labelled. *)
Example cluster_three_customers :
  cluster identity_scaler first_four (firstn 3 sample_scored) = Raise TooFewSamples.
Proof. reflexivity. Qed.

Example cluster_five_customers :
  cluster identity_scaler first_four sample_scored = Ok [0; 1; 2; 3; 3].
Proof. vm_compute. reflexivity. Qed.

(** ** Sums of rationals *)

Lemma Qsum_cons (q : Q) (l : list Q) : Qsum (q :: l) = (q + Qsum l)%Q.
Proof. reflexivity. Qed.

(** ** Rounding *)

Lemma Qlt_bool_iff (a b : Q) : Qlt_bool a b = true <-> (a < b)%Q.
Proof.
  unfold Qlt_bool. rewrite negb_true_iff. split.
  - intros H. apply Qnot_le_lt. intros Hle. apply Qle_bool_iff in Hle. congruence.
  - intros H. destruct (Qle_bool b a) eqn:E; [|reflexivity].
    apply Qle_bool_iff in E. exfalso. now apply (Qlt_not_le a b).
Qed.

(** ** Category performance *)



Lemma StronglySorted_impl {A} (R R' : A -> A -> Prop) (l : list A) :
  (forall a b, R a b -> R' a b) -> StronglySorted R l -> StronglySorted R' l.
Proof.
  intros HR. induction 1 as [|a t _ IH Ha]; constructor; [exact IH|].
  eapply Forall_impl; [|exact Ha]. intros b. apply HR.
Qed.


Lemma dropna_In {A} (key : A -> string) (rows : list A) (r : A) :
  In r (dropna key rows) <-> In r rows /\ isna (key r) = false.
Proof. unfold dropna. now rewrite filter_In, negb_true_iff. Qed.

(** A group of a key that is not missing holds all the rows of that key. *)
Lemma dropna_group {A} (key : A -> string) (rows : list A) (k : string) :
  isna k = false ->
  filter (fun r => String.eqb (key r) k) (dropna key rows)
  = filter (fun r => String.eqb (key r) k) rows.
Proof.
  intros Hk. unfold dropna. induction rows as [|r t IH]; [reflexivity|].
  cbn [filter].
  destruct (isna (key r)) eqn:Hn; cbn [negb filter];
    destruct (String.eqb (key r) k) eqn:E; rewrite IH; try reflexivity.
  apply String_eqb_eq_iff in E. congruence.
Qed.

(** The rows of the category table: one for each category of the sales
    data that is not missing, aggregating all the sales of that category. *)
Lemma category_performance_In (group_sum group_mean : list Q -> float)
    (sales : list sales_row) (row : category_row) :
  In row (category_performance group_sum group_mean sales) <->
  exists k, In k (map product_category sales) /\ isna k = false /\
    row = category_agg group_sum group_mean
            (k, filter (fun s => String.eqb (product_category s) k) sales).
Proof.
  unfold category_performance.
  set (groups := groupby String.eqb String.leb product_category
                         (dropna product_category sales)).
  assert (Hg : forall k g, In (k, g) groups <->
             (In k (map product_category sales) /\ isna k = false) /\
             g = filter (fun s => String.eqb (product_category s) k) sales).
  { intros k g. unfold groups, groupby. rewrite in_map_iff. split.
    - intros (k' & E & Hk). inversion E; subst k' g. clear E.
      apply (group_keys_In _ _ _ String_eqb_eq_iff) in Hk.
      apply in_map_iff in Hk. destruct Hk as (s & Es & Hs).
      apply dropna_In in Hs. destruct Hs as [Hs Hn]. rewrite Es in Hn.
      split; [split; [|exact Hn]|now apply dropna_group].
      rewrite <- Es. now apply in_map.
    - intros [[Hk Hn] ->]. exists k. split; [now rewrite dropna_group|].
      apply (group_keys_In _ _ _ String_eqb_eq_iff).
      apply in_map_iff in Hk. destruct Hk as (s & Es & Hs).
      apply in_map_iff. exists s. split; [exact Es|].
      apply dropna_In. split; [exact Hs | now rewrite Es]. }
  split.
  - intros H. apply (Permutation_in _ (sort_by_perm _ _)) in H.
    apply in_map_iff in H. destruct H as ([k g] & <- & H).
    apply Hg in H. destruct H as [[Hk Hn] ->]. exists k. auto.
  - intros (k & Hk & Hn & ->).
    apply (Permutation_in _ (Permutation_sym (sort_by_perm _ _))).
    apply in_map. apply Hg. auto.
Qed.


(** Some doubles: 0.1 and 1/3 with their 53-bit significands, a tie that
    goes to the even significand and one that goes up, the smallest
    subnormal number, and the largest double with the overflow above it. *)
Example binary64_values :
  nearest_double (1 # 10) = (3602879701896397 # 2 ^ 55)%Q /\
  nearest_double (- 1 # 3) = (- 6004799503160661 # 2 ^ 54)%Q /\
  nearest_double (inject_Z (2 ^ 53 + 1)) = inject_Z (2 ^ 53) /\
  nearest_double (inject_Z (2 ^ 53 + 3)) = inject_Z (2 ^ 53 + 4) /\
  nearest_double (1 # 2 ^ 1074) = (1 # 2 ^ 1074)%Q /\
  nearest_double (1 # 2 ^ 1075) = 0%Q /\
  binary64 (inject_Z (2 ^ 1024 - 2 ^ 970 - 1))
  = Finite (inject_Z ((2 ^ 53 - 1) * 2 ^ 971)) /\
  binary64 (inject_Z (2 ^ 1024 - 2 ^ 970)) = Infinity false /\
  binary64 (inject_Z (- 2 ^ 1024)) = Infinity true.
Proof. vm_compute. repeat split; reflexivity. Qed.

(** The doubles of the two tables below: 0.1 + 0.2 is one unit in the last
    place above 0.3, and rounding it to two decimals gives 0.3; 0.004 is
    rounded to 0, 0.575 to 0.57, the double of that text being below the
    tie, and a number of the size of 10^307 to infinity. *)
Example binary64_cents :
  float_eqb (fadd (binary64 (10 # 100)) (binary64 (20 # 100)))
            (Finite (nearest_double (30 # 100) + (1 # 2 ^ 54))) = true /\
  np_round 2 (fadd (binary64 (10 # 100)) (binary64 (20 # 100)))
  = binary64 (30 # 100) /\
  np_round 2 (binary64 (4 # 1000)) = Finite 0 /\
  np_round 2 (binary64 (575 # 1000)) = binary64 (57 # 100) /\
  np_round 2 (binary64 (inject_Z (2 ^ 1020))) = Infinity false.
Proof. vm_compute. repeat split; reflexivity. Qed.

(** The descending order of float64 values. *)
Example float_descending :
  sort_by float_geb
    [Finite 1; NaN; Infinity false; Finite (5 # 2); Infinity true; Finite 2]
  = [Infinity false; Finite (5 # 2); Finite 2; Finite 1; Infinity true; NaN].
Proof. reflexivity. Qed.

Example float_category_totals :
  map (fun c => (category c, total_revenue c))
      (category_performance column_sum column_mean subcent_sales)
  = [("Books", Finite 0); ("Toys", Finite 0)] /\
  grand_total_revenue column_sum subcent_sales = binary64 (8 # 1000) /\
  map (fun c => (category c, total_revenue c))
      (category_performance column_sum column_mean cents_sales)
  = [("Books", binary64 (30 # 100))] /\
  grand_total_revenue column_sum cents_sales
  = fadd (binary64 (10 # 100)) (binary64 (20 # 100)).
Proof. vm_compute. repeat split; reflexivity. Qed.



(** ** Percentages of the segment profile *)

Lemma rint_error (q : Q) :
  (q - (1 # 2) <= inject_Z (rint q) <= q + (1 # 2))%Q.
Proof.
  unfold rint. cbv zeta.
  pose proof (Qfloor_le q) as Hlo. pose proof (Qlt_floor q) as Hhi.
  rewrite inject_Z_plus in Hhi. change (inject_Z 1) with 1%Q in Hhi.
  destruct (Qlt_bool (q - inject_Z (Qfloor q)) (1 # 2)) eqn:E1.
  - apply Qlt_bool_iff in E1. split; lra.
  - assert (H1 : ~ (q - inject_Z (Qfloor q) < 1 # 2)%Q)
      by (rewrite <- Qlt_bool_iff; congruence).
    apply Qnot_lt_le in H1.
    destruct (Qlt_bool (1 # 2) (q - inject_Z (Qfloor q))) eqn:E2.
    + rewrite inject_Z_plus. change (inject_Z 1) with 1%Q. split; lra.
    + assert (H2 : ~ (1 # 2 < q - inject_Z (Qfloor q))%Q)
        by (rewrite <- Qlt_bool_iff; congruence).
      apply Qnot_lt_le in H2.
      destruct (Z.even (Qfloor q));
        [|rewrite inject_Z_plus; change (inject_Z 1) with 1%Q]; split; lra.
Qed.

Lemma round_1_error (q : Q) : (q - (1 # 20) <= round 1 q <= q + (1 # 20))%Q.
Proof.
  unfold round. cbv zeta.
  replace (inject_Z (10 ^ Z.of_nat 1)) with 10%Q by reflexivity.
  pose proof (rint_error (q * 10)) as [H1 H2].
  unfold Qdiv. change (/ 10)%Q with (1 # 10)%Q.
  split; lra.
Qed.

Lemma Qsum_error {A} (f g : A -> Q) (eps : Q) (l : list A) :
  (forall a, In a l -> (g a - eps <= f a <= g a + eps)%Q) ->
  (Qsum (map g l) - inject_Z (Z.of_nat (length l)) * eps
   <= Qsum (map f l)
   <= Qsum (map g l) + inject_Z (Z.of_nat (length l)) * eps)%Q.
Proof.
  induction l as [|a t IH]; intros H.
  - change (0 - 0 * eps <= 0 <= 0 + 0 * eps)%Q. split; lra.
  - simpl map. rewrite !Qsum_cons. simpl length. rewrite Nat2Z.inj_succ.
    unfold Z.succ. rewrite inject_Z_plus.
    destruct (H a (or_introl eq_refl)) as [H1 H2].
    destruct IH as [H3 H4]; [intros; apply H; now right|].
    change (inject_Z 1) with 1%Q.
    split; lra.
Qed.

Lemma Qsum_inject_scaled {A} (f : A -> Z) (c : Q) (l : list A) :
  (Qsum (map (fun a => inject_Z (f a) * c) l) == inject_Z (Zsum (map f l)) * c)%Q.
Proof.
  induction l as [|a t IH]; simpl map.
  - simpl. ring.
  - rewrite Qsum_cons, IH. change (Zsum (f a :: map f t)) with (f a + Zsum (map f t)).
    rewrite inject_Z_plus. ring.
Qed.

Lemma segment_names_valid (scored : list scored_row) (labels : list Z) (s : segmented_row) :
  In s (add_cluster_and_segment scored labels) -> In (segment_name s) segment_labels.
Proof.
  unfold add_cluster_and_segment. rewrite in_map_iff.
  intros ([row l] & <- & _). simpl. apply assign_segment_name_total.
Qed.

Lemma segment_profile_rows (scored : list scored_row) (labels : list Z) :
  (length (segment_profile (add_cluster_and_segment scored labels)) <= 5)%nat.
Proof.
  unfold segment_profile, groupby. rewrite !length_map.
  change 5%nat with (length segment_labels).
  apply NoDup_incl_length.
  - apply (group_keys_NoDup _ _ _ String_eqb_eq_iff).
  - intros k Hk. apply (group_keys_In _ _ _ String_eqb_eq_iff) in Hk.
    apply in_map_iff in Hk. destruct Hk as (s & <- & Hs).
    now apply segment_names_valid in Hs.
Qed.

Lemma segment_profile_percentages (scored : list scored_row) (labels : list Z) :
  add_cluster_and_segment scored labels <> [] ->
  (100 - (1 # 4)
   <= Qsum (map percentage (segment_profile (add_cluster_and_segment scored labels)))
   <= 100 + (1 # 4))%Q.
Proof.
  set (t := add_cluster_and_segment scored labels). intros Hne.
  set (n := inject_Z (Z.of_nat (length t))).
  assert (Hn : ~ (n == 0)%Q).
  { unfold n. intros H. unfold Qeq in H. simpl in H.
    destruct t; [congruence | simpl length in H; lia]. }
  pose proof (Qsum_error percentage
                (fun p => inject_Z (customer_count p) * (/ n * 100))%Q
                (1 # 20) (segment_profile t)) as Herr.
  destruct Herr as [H1 H2].
  { intros p Hp. unfold segment_profile in Hp. apply in_map_iff in Hp.
    destruct Hp as (g & <- & _). simpl. fold n.
    pose proof (round_1_error (inject_Z (Z.of_nat (length (snd g))) / n * 100)) as [Ha Hb].
    unfold Qdiv in *. split; lra. }
  rewrite Qsum_inject_scaled, segment_profile_counts in H1, H2.
  fold n in H1, H2.
  assert (E : (n * (/ n * 100) == 100)%Q) by (field; exact Hn).
  rewrite E in H1, H2.
  pose proof (segment_profile_rows scored labels) as Hk. fold t in Hk.
  assert (Hk' : (inject_Z (Z.of_nat (length (segment_profile t))) <= 5)%Q).
  { change 5%Q with (inject_Z 5). rewrite <- Zle_Qle. lia. }
  split; lra.
Qed.

(** C10: [assign_segment_name] returns one of the five labels for every
    triple of scores; the customer_count column of the segment profile adds
    up to the number of RFM rows; and the percentages, each rounded to one
    decimal, add up to 100 within a quarter of a point. *)
Theorem segments_partition_customers :
  (forall row, In (assign_segment_name row) segment_labels) /\
  (forall r f m, In (assign_segment_name (with_scores r f m)) segment_labels) /\
  (forall t, Zsum (map customer_count (segment_profile t)) = Z.of_nat (length t)) /\
  (forall scored labels,
     add_cluster_and_segment scored labels <> [] ->
     (100 - (1 # 4)
      <= Qsum (map percentage (segment_profile (add_cluster_and_segment scored labels)))
      <= 100 + (1 # 4))%Q).
Proof.
  split; [exact assign_segment_name_total|].
  split; [intros; apply assign_segment_name_total|].
  split; [exact segment_profile_counts | exact segment_profile_percentages].
Qed.

(** ** Sorted columns *)

Lemma Qeq_bool_false_iff (a b : Q) : Qeq_bool a b = false <-> ~ (a == b)%Q.
Proof.
  rewrite <- Qeq_bool_iff. destruct (Qeq_bool a b); split; congruence.
Qed.

Lemma Qle_bool_false_iff (a b : Q) : Qle_bool a b = false <-> (b < a)%Q.
Proof.
  rewrite <- Qlt_bool_iff. unfold Qlt_bool. destruct (Qle_bool a b); simpl; split; congruence.
Qed.

Lemma Qlt_bool_false_iff (a b : Q) : Qlt_bool a b = false <-> (b <= a)%Q.
Proof.
  unfold Qlt_bool. rewrite negb_false_iff. apply Qle_bool_iff.
Qed.

Lemma sort_Q_sorted (x : list Q) : StronglySorted Qle (sort_by Qle_bool x).
Proof.
  apply StronglySorted_impl with (R := fun a b => Qle_bool a b = true).
  - intros a b. apply Qle_bool_iff.
  - apply sort_by_sorted.
    + intros a b. rewrite !Qle_bool_iff.
      destruct (Qlt_le_dec a b); [left; now apply Qlt_le_weak | now right].
    + intros a b c. rewrite !Qle_bool_iff. apply Qle_trans.
Qed.

Lemma StronglySorted_nth {A} (R : A -> A -> Prop) (l : list A) (d : A) (i j : nat) :
  StronglySorted R l -> (i < j)%nat -> (j < length l)%nat ->
  R (nth i l d) (nth j l d).
Proof.
  intros Hs. revert i j. induction Hs as [|a t _ IH Ha]; intros i j Hij Hj.
  - simpl in Hj. lia.
  - destruct j as [|j]; [lia|]. simpl in Hj. destruct i as [|i]; simpl.
    + rewrite Forall_forall in Ha. apply Ha, nth_In. lia.
    + apply IH; lia.
Qed.

Lemma sorted_nth_le (s : list Q) (i j : nat) :
  StronglySorted Qle s -> (i <= j)%nat -> (j < length s)%nat ->
  (nth i s 0 <= nth j s 0)%Q.
Proof.
  intros Hs Hij Hj. destruct (Nat.eq_dec i j) as [->|Hne].
  - apply Qle_refl.
  - apply StronglySorted_nth; [exact Hs | lia | exact Hj].
Qed.



(** Every element lies between the first and the last of a sorted list. *)
Lemma sorted_bounds (s : list Q) (v : Q) :
  StronglySorted Qle s -> In v s ->
  (nth 0 s 0 <= v <= nth (length s - 1) s 0)%Q.
Proof.
  intros Hs Hv. destruct (In_nth s v 0%Q Hv) as (i & Hi & <-).
  split; apply sorted_nth_le; try exact Hs; lia.
Qed.

(** ** Quantiles *)

Section Quantile.
Variable s : list Q.
Hypothesis s_nonempty : s <> [].

Let n := length s.
Let M := (Z.of_nat n - 1)%Z.

Lemma quantile_M_nonneg : 0 <= M.
Proof. unfold M, n. destruct s; [congruence | simpl length; lia]. Qed.

Lemma quantile_floor_range (p : Q) :
  (0 <= p <= 1)%Q -> 0 <= Qfloor (inject_Z M * p) <= M.
Proof.
  intros [Hp0 Hp1]. pose proof quantile_M_nonneg as HM.
  assert (HMq : (0 <= inject_Z M)%Q) by (change 0%Q with (inject_Z 0); now rewrite <- Zle_Qle).
  split.
  - change 0 with (Qfloor 0). apply Qfloor_resp_le. now apply Qmult_le_0_compat.
  - rewrite <- (Qfloor_Z M) at 2. apply Qfloor_resp_le. nra.
Qed.

Lemma quantile_gamma_range (p : Q) :
  (0 <= inject_Z M * p - inject_Z (Qfloor (inject_Z M * p)) < 1)%Q.
Proof.
  pose proof (Qfloor_le (inject_Z M * p)) as H1.
  pose proof (Qlt_floor (inject_Z M * p)) as H2.
  rewrite inject_Z_plus in H2. change (inject_Z 1) with 1%Q in H2.
  split; lra.
Qed.

Lemma quantile_unfold (p : Q) :
  quantile s p
  = (let h := inject_Z M * p in
     let lo := Z.to_nat (Qfloor h) in
     nth lo s 0 + (h - inject_Z (Qfloor h))
                  * (nth (Nat.min (lo + 1) (n - 1)) s 0 - nth lo s 0))%Q.
Proof. reflexivity. Qed.

(** A quantile lies between the two order statistics it interpolates. *)
Lemma quantile_bracket (p : Q) :
  StronglySorted Qle s -> (0 <= p <= 1)%Q ->
  let lo := Z.to_nat (Qfloor (inject_Z M * p)) in
  (lo <= n - 1)%nat /\
  (nth lo s 0 <= quantile s p <= nth (Nat.min (lo + 1) (n - 1)) s 0)%Q.
Proof.
  intros Hs Hp lo.
  pose proof (quantile_floor_range p Hp) as Hf.
  pose proof (quantile_gamma_range p) as Hg.
  pose proof quantile_M_nonneg as HM.
  assert (Hlo : (lo <= n - 1)%nat) by (unfold lo, M in *; lia).
  split; [exact Hlo|].
  rewrite quantile_unfold. cbv zeta. fold lo.
  assert (Hab : (nth lo s 0 <= nth (Nat.min (lo + 1) (n - 1)) s 0)%Q).
  { apply sorted_nth_le; [exact Hs | lia | fold n; unfold M in *; lia]. }
  set (a := nth lo s 0%Q) in *. set (b := nth (Nat.min (lo + 1) (n - 1)) s 0%Q) in *.
  set (g := (inject_Z M * p - inject_Z (Qfloor (inject_Z M * p)))%Q) in *.
  split; nra.
Qed.


(** Quantiles grow with the probability. *)
Lemma quantile_monotone (p p' : Q) :
  StronglySorted Qle s -> (0 <= p)%Q -> (p <= p')%Q -> (p' <= 1)%Q ->
  (quantile s p <= quantile s p')%Q.
Proof.
  intros Hs Hp0 Hpp Hp1.
  assert (Hp : (0 <= p <= 1)%Q) by (split; lra).
  assert (Hp' : (0 <= p' <= 1)%Q) by (split; lra).
  destruct (quantile_bracket p Hs Hp) as (Hlo & Ha & Hb).
  destruct (quantile_bracket p' Hs Hp') as (Hlo' & Ha' & Hb').
  pose proof (quantile_floor_range p Hp) as Hf.
  pose proof (quantile_floor_range p' Hp') as Hf'.
  pose proof quantile_M_nonneg as HM.
  assert (HMq : (0 <= inject_Z M)%Q) by (change 0%Q with (inject_Z 0); now rewrite <- Zle_Qle).
  assert (Hh : (inject_Z M * p <= inject_Z M * p')%Q) by nra.
  pose proof (Qfloor_resp_le _ _ Hh) as Hfl.
  destruct (Z.eq_dec (Qfloor (inject_Z M * p)) (Qfloor (inject_Z M * p'))) as [E|E].
  - rewrite !quantile_unfold. cbv zeta. rewrite <- E.
    set (lo := Z.to_nat (Qfloor (inject_Z M * p))) in *.
    assert (Hab : (nth lo s 0 <= nth (Nat.min (lo + 1) (n - 1)) s 0)%Q).
    { apply sorted_nth_le; [exact Hs | lia | fold n; unfold M in *; lia]. }
    set (a := nth lo s 0%Q) in *. set (b := nth (Nat.min (lo + 1) (n - 1)) s 0%Q) in *.
    nra.
  - apply Qle_trans with (nth (Nat.min (Z.to_nat (Qfloor (inject_Z M * p)) + 1) (n - 1)) s 0%Q);
      [exact Hb|].
    apply Qle_trans with (nth (Z.to_nat (Qfloor (inject_Z M * p'))) s 0%Q); [|exact Ha'].
    apply sorted_nth_le; [exact Hs | lia | fold n; unfold M in *; lia].
Qed.

End Quantile.

(** ** Bin edges *)

Lemma linspace_5 : linspace 5 = [0 # 5; 1 # 5; 2 # 5; 3 # 5; 4 # 5; 5 # 5]%Q.
Proof. reflexivity. Qed.

Lemma bin_edges_5 (x : list Q) :
  bin_edges x 5
  = map (quantile (sort_by Qle_bool x)) [0 # 5; 1 # 5; 2 # 5; 3 # 5; 4 # 5; 5 # 5]%Q.
Proof. reflexivity. Qed.

Lemma linspace_5_sorted : StronglySorted Qlt (linspace 5).
Proof.
  rewrite linspace_5.
  repeat (constructor; [|repeat constructor; reflexivity]). constructor.
Qed.

Lemma linspace_5_range (p : Q) : In p (linspace 5) -> (0 <= p <= 1)%Q.
Proof.
  rewrite linspace_5. simpl.
  intros [<-|[<-|[<-|[<-|[<-|[<-|[]]]]]]]; split; unfold Qle; simpl; lia.
Qed.

Lemma StronglySorted_map {A B} (R : A -> A -> Prop) (R' : B -> B -> Prop)
    (f : A -> B) (l : list A) :
  (forall a b, In a l -> In b l -> R a b -> R' (f a) (f b)) ->
  StronglySorted R l -> StronglySorted R' (map f l).
Proof.
  intros Hf Hs. induction Hs as [|a t Hs IH Ha]; simpl; constructor.
  - apply IH. intros; apply Hf; simpl; auto.
  - rewrite Forall_forall in *. intros b Hb. apply in_map_iff in Hb.
    destruct Hb as (c & <- & Hc). apply Hf; simpl; auto.
Qed.

Lemma sort_nonempty {A} (leb : A -> A -> bool) (x : list A) :
  x <> [] -> sort_by leb x <> [].
Proof.
  intros Hx Hs. apply Hx. apply length_zero_iff_nil.
  rewrite <- (sort_by_length leb), Hs. reflexivity.
Qed.

(** The six edges never decrease. *)
Lemma bin_edges_sorted (x : list Q) :
  x <> [] -> StronglySorted Qle (bin_edges x 5).
Proof.
  intros Hx. unfold bin_edges.
  apply StronglySorted_map with (R := Qlt); [|apply linspace_5_sorted].
  intros p p' Hp Hp' Hlt.
  apply linspace_5_range in Hp, Hp'.
  apply quantile_monotone; try tauto.
  - now apply sort_nonempty.
  - apply sort_Q_sorted.
  - now apply Qlt_le_weak.
Qed.



Lemma all_distinct_Forall (a : Q) (t : list Q) :
  existsb (Qeq_bool a) t = false -> Forall (fun b => ~ (a == b)%Q) t.
Proof.
  induction t as [|b t' IH]; simpl; [constructor|].
  rewrite orb_false_iff. intros [H1 H2]. constructor; [|now apply IH].
  now apply Qeq_bool_false_iff.
Qed.

Lemma sorted_distinct_strict (l : list Q) :
  StronglySorted Qle l -> all_distinct l = true -> StronglySorted Qlt l.
Proof.
  induction 1 as [|a t _ IH Ha]; simpl; [constructor|].
  rewrite andb_true_iff, negb_true_iff. intros [H1 H2].
  constructor; [now apply IH|].
  apply all_distinct_Forall in H1. rewrite Forall_forall in *.
  intros b Hb. specialize (Ha b Hb). apply Qle_lteq in Ha.
  destruct Ha as [Hlt|Heq]; [exact Hlt | now apply H1 in Hb].
Qed.

(** The first edge is the smallest value and the last edge the largest. *)
Lemma quantile_0 (s : list Q) : (quantile s (0 # 5) == nth 0 s 0)%Q.
Proof.
  rewrite quantile_unfold. cbv zeta.
  assert (E : (inject_Z (Z.of_nat (length s) - 1) * (0 # 5) == 0)%Q)
    by (unfold Qeq, Qmult; simpl; lia).
  assert (Ef : Qfloor (inject_Z (Z.of_nat (length s) - 1) * (0 # 5)) = 0)
    by (rewrite E; reflexivity).
  rewrite Ef. simpl Z.to_nat. rewrite E. change (inject_Z 0) with 0%Q. ring.
Qed.

Lemma quantile_1 (s : list Q) :
  s <> [] -> (quantile s (5 # 5) == nth (length s - 1) s 0)%Q.
Proof.
  intros Hs. rewrite quantile_unfold. cbv zeta.
  set (M := Z.of_nat (length s) - 1).
  assert (E : (inject_Z M * (5 # 5) == inject_Z M)%Q)
    by (unfold Qeq, Qmult; simpl; lia).
  assert (Ef : Qfloor (inject_Z M * (5 # 5)) = M)
    by (rewrite E; apply Qfloor_Z).
  rewrite Ef.
  assert (El : Z.to_nat M = (length s - 1)%nat) by (unfold M; lia).
  rewrite El, E. ring.
Qed.

Lemma bin_edges_first (x : list Q) (v : Q) :
  In v x -> (hd 0 (bin_edges x 5) <= v)%Q.
Proof.
  intros Hv. rewrite bin_edges_5. simpl hd. rewrite quantile_0.
  apply sorted_bounds; [apply sort_Q_sorted | now apply sort_by_In].
Qed.

Lemma bin_edges_last (x : list Q) (v : Q) :
  In v x -> (v <= nth 5 (bin_edges x 5) 0)%Q.
Proof.
  intros Hv. rewrite bin_edges_5. simpl nth.
  rewrite quantile_1 by (apply sort_nonempty; destruct x; [contradiction | congruence]).
  apply sorted_bounds; [apply sort_Q_sorted | now apply sort_by_In].
Qed.

(** ** Bin numbers and labels *)

Lemma six_edges (x : list Q) :
  exists e0 e1 e2 e3 e4 e5, bin_edges x 5 = [e0; e1; e2; e3; e4; e5].
Proof. rewrite bin_edges_5. simpl. repeat eexists. Qed.

Lemma bin_id_range (e0 e1 e2 e3 e4 e5 v : Q) :
  (e0 <= v)%Q -> (v <= e5)%Q ->
  (1 <= bin_id [e0; e1; e2; e3; e4; e5] v <= 5)%nat.
Proof.
  intros Hlo Hhi. unfold bin_id. simpl hd.
  destruct (Qeq_bool v e0) eqn:E0; [lia|].
  apply Qeq_bool_false_iff in E0.
  assert (H0 : Qlt_bool e0 v = true).
  { apply Qlt_bool_iff. apply Qle_lteq in Hlo. destruct Hlo as [H|H]; [exact H|].
    exfalso. apply E0. now symmetry. }
  assert (H5 : Qlt_bool e5 v = false) by now apply Qlt_bool_false_iff.
  simpl filter. rewrite H0, H5.
  destruct (Qlt_bool e1 v), (Qlt_bool e2 v), (Qlt_bool e3 v), (Qlt_bool e4 v);
    simpl; lia.
Qed.

Lemma bin_edges_bin_id_range (x : list Q) (v : Q) :
  In v x -> (1 <= bin_id (bin_edges x 5) v <= 5)%nat.
Proof.
  intros Hv. pose proof (bin_edges_first x v Hv) as Hlo.
  pose proof (bin_edges_last x v Hv) as Hhi.
  destruct (six_edges x) as (e0 & e1 & e2 & e3 & e4 & e5 & E).
  rewrite E in *. now apply bin_id_range.
Qed.




Lemma direct_label (id : nat) :
  (1 <= id <= 5)%nat -> bin_label [1; 2; 3; 4; 5] id = Z.of_nat id.
Proof.
  intros H. do 6 (destruct id as [|id]; [try lia; reflexivity|]). lia.
Qed.

Lemma inverted_label (id : nat) :
  (1 <= id <= 5)%nat -> bin_label [5; 4; 3; 2; 1] id = 6 - Z.of_nat id.
Proof.
  intros H. do 6 (destruct id as [|id]; [try lia; reflexivity|]). lia.
Qed.

(** ** What [qcut] returns *)

Lemma qcut_Ok (x : list Q) (q : nat) (labels sc : list Z) :
  qcut x q labels = Ok sc ->
  x <> [] /\ all_distinct (bin_edges x q) = true /\
  sc = map (fun v => bin_label labels (bin_id (bin_edges x q) v)) x.
Proof.
  unfold qcut. destruct x as [|v t]; [discriminate|].
  destruct (all_distinct (bin_edges (v :: t) q)); [|discriminate].
  intros E. inversion E. repeat split. congruence.
Qed.

Lemma qcut_Raise (x : list Q) (q : nat) (labels : list Z) (e : exn) :
  qcut x q labels = Raise e ->
  e = BinEdgesMustBeUnique /\ (x = [] \/ all_distinct (bin_edges x q) = false).
Proof.
  unfold qcut. destruct x as [|v t]; [intros E; inversion E; auto|].
  destruct (all_distinct (bin_edges (v :: t) q)); [discriminate|].
  intros E. inversion E. auto.
Qed.


Lemma qcut_direct (x : list Q) (sc : list Z) :
  qcut x 5 [1; 2; 3; 4; 5] = Ok sc ->
  sc = map (fun v => Z.of_nat (bin_id (bin_edges x 5) v)) x.
Proof.
  intros H. apply qcut_Ok in H. destruct H as (_ & _ & ->).
  apply map_ext_in. intros v Hv. apply direct_label.
  now apply bin_edges_bin_id_range.
Qed.

Lemma qcut_inverted (x : list Q) (sc : list Z) :
  qcut x 5 [5; 4; 3; 2; 1] = Ok sc ->
  sc = map (fun v => 6 - Z.of_nat (bin_id (bin_edges x 5) v)) x.
Proof.
  intros H. apply qcut_Ok in H. destruct H as (_ & _ & ->).
  apply map_ext_in. intros v Hv. apply inverted_label.
  now apply bin_edges_bin_id_range.
Qed.

Lemma zip_scores_columns (t : list rfm_row) (r f m : list Z) :
  length r = length t -> length f = length t -> length m = length t ->
  map base (zip_scores t r f m) = t /\
  map r_score (zip_scores t r f m) = r /\
  map f_score (zip_scores t r f m) = f /\
  map m_score (zip_scores t r f m) = m.
Proof.
  revert r f m. induction t as [|row t IH]; intros r f m Hr Hf Hm.
  - destruct r, f, m; try discriminate. simpl. auto.
  - destruct r as [|r1 r], f as [|f1 f], m as [|m1 m]; try discriminate.
    simpl in *. destruct (IH r f m) as (H1 & H2 & H3 & H4); try lia.
    rewrite H1, H2, H3, H4. auto.
Qed.

(** The columns of a scored table. *)
Lemma score_rfm_columns (t : list rfm_row) (scored : list scored_row) :
  score_rfm t = Ok scored ->
  map base scored = t /\
  r_scores t = Ok (map r_score scored) /\
  f_scores t = Ok (map f_score scored) /\
  m_scores t = Ok (map m_score scored).
Proof.
  unfold score_rfm.
  destruct (r_scores t) as [r|] eqn:Er; [|discriminate].
  destruct (f_scores t) as [f|] eqn:Ef; [|discriminate].
  destruct (m_scores t) as [m|] eqn:Em; [|discriminate].
  simpl. intros E. inversion E; subst scored.
  apply qcut_Ok in Er, Ef, Em.
  destruct Er as (_ & _ & Er), Ef as (_ & _ & Ef), Em as (_ & _ & Em).
  destruct (zip_scores_columns t r f m) as (H1 & H2 & H3 & H4).
  - subst r. unfold recency_column. now rewrite !length_map.
  - subst f. unfold frequency_rank_column. rewrite !length_map.
    unfold rank_first.
    assert (Hl : forall all earlier rest, length (rank_from all earlier rest) = length rest).
    { intros all earlier rest. revert earlier.
      induction rest as [|v rest IH]; intros earlier; simpl; [reflexivity|].
      now rewrite IH. }
    now rewrite Hl, length_map.
  - subst m. unfold monetary_column. now rewrite !length_map.
  - rewrite H1, H2, H3, H4. auto.
Qed.

(** ** Ranks *)





Lemma rank_from_length (all earlier rest : list Z) :
  length (rank_from all earlier rest) = length rest.
Proof.
  revert earlier. induction rest as [|v rest IH]; intros earlier; simpl;
    [reflexivity | now rewrite IH].
Qed.

Lemma rank_first_length (x : list Z) : length (rank_first x) = length x.
Proof. apply rank_from_length. Qed.











(** ** Sorting distinct values *)



(** ** Counting the values below a quantile *)










(** ** Populations of the five bins *)

(** Between increasing edges, the bin of a value is at most [j] exactly
    when the value is at most the j-th edge. *)
Ltac case_le v e :=
  let E := fresh "E" in
  destruct (Qle_bool v e) eqn:E;
  [apply Qle_bool_iff in E | apply Qle_bool_false_iff in E];
  try (exfalso; lra).


Lemma six_increasing (e0 e1 e2 e3 e4 e5 : Q) :
  StronglySorted Qlt [e0; e1; e2; e3; e4; e5] ->
  (e0 < e1)%Q /\ (e1 < e2)%Q /\ (e2 < e3)%Q /\ (e3 < e4)%Q /\ (e4 < e5)%Q.
Proof.
  intros H.
  repeat match goal with
         | H : StronglySorted _ (_ :: _) |- _ =>
           apply StronglySorted_inv in H; destruct H as [? ?]
         | H : Forall _ (_ :: _) |- _ =>
           apply Forall_cons_iff in H; destruct H as [? ?]
         end.
  tauto.
Qed.





(** ** The scores of a scored table *)

Lemma nth_map_default {A B} (f : A -> B) (l : list A) (i : nat) (dA : A) (dB : B) :
  (i < length l)%nat -> nth i (map f l) dB = f (nth i l dA).
Proof.
  intros Hi. rewrite (nth_indep _ dB (f dA)) by now rewrite length_map.
  apply map_nth.
Qed.

Lemma map_through {A B C} (f : A -> C) (g : B -> C) (h : A -> B)
    (l : list A) (l' : list B) :
  map h l = l' -> map f l = map g l' -> forall a, In a l -> f a = g (h a).
Proof. intros <- E. rewrite map_map in E. exact (ext_in_map E). Qed.


Section ScoredTable.
Variable t : list rfm_row.
Variable scored : list scored_row.
Hypothesis scoring_succeeds : score_rfm t = Ok scored.

Let r_bins := bin_edges (recency_column t) 5.
Let f_bins := bin_edges (frequency_rank_column t) 5.
Let m_bins := bin_edges (monetary_column t) 5.
Let ranks := rank_first (map (fun r => frequency (metrics r)) t).

Lemma scored_base : map base scored = t.
Proof. now destruct (score_rfm_columns t scored scoring_succeeds). Qed.

Lemma scored_length : length scored = length t.
Proof. rewrite <- scored_base at 1. now rewrite length_map. Qed.

Lemma scored_base_In (s : scored_row) : In s scored -> In (base s) t.
Proof. intros H. rewrite <- scored_base. now apply in_map. Qed.

Lemma scored_r_score (s : scored_row) :
  In s scored ->
  r_score s = 6 - Z.of_nat (bin_id r_bins (inject_Z (row_recency s))).
Proof.
  destruct (score_rfm_columns t scored scoring_succeeds) as (Hb & Hr & _).
  apply qcut_inverted in Hr. unfold recency_column in Hr at 2.
  rewrite map_map in Hr. exact (map_through _ _ _ _ _ Hb Hr s).
Qed.

Lemma scored_m_score (s : scored_row) :
  In s scored -> m_score s = Z.of_nat (bin_id m_bins (row_monetary s)).
Proof.
  destruct (score_rfm_columns t scored scoring_succeeds) as (Hb & _ & _ & Hm).
  apply qcut_direct in Hm. unfold monetary_column in Hm at 2.
  rewrite map_map in Hm. exact (map_through _ _ _ _ _ Hb Hm s).
Qed.

Lemma ranks_length : length ranks = length t.
Proof. unfold ranks. now rewrite rank_first_length, length_map. Qed.

Lemma scored_nth (i : nat) (s : scored_row) :
  nth_error scored i = Some s ->
  (i < length t)%nat /\
  row_frequency s = nth i (map (fun r => frequency (metrics r)) t) 0 /\
  f_score s = Z.of_nat (bin_id f_bins (inject_Z (nth i ranks 0))).
Proof.
  intros Hi.
  assert (Hlt : (i < length t)%nat).
  { rewrite <- scored_length. apply nth_error_Some. congruence. }
  split; [exact Hlt|]. split.
  - rewrite <- scored_base, map_map.
    rewrite (nth_map_default _ scored i s 0) by (rewrite scored_length; exact Hlt).
    now rewrite (nth_error_nth scored i s Hi).
  - destruct (score_rfm_columns t scored scoring_succeeds) as (_ & _ & Hf & _).
    apply qcut_direct in Hf. unfold frequency_rank_column in Hf at 2.
    rewrite map_map in Hf. fold ranks in Hf.
    assert (E : nth i (map f_score scored) 0 = f_score s).
    { rewrite (nth_map_default _ scored i s 0) by (rewrite scored_length; exact Hlt).
      now rewrite (nth_error_nth scored i s Hi). }
    rewrite <- E, Hf.
    now rewrite (nth_map_default _ ranks i 0 0) by (rewrite ranks_length; exact Hlt).
Qed.

Lemma recency_in_column (s : scored_row) :
  In s scored -> In (inject_Z (row_recency s)) (recency_column t).
Proof.
  intros Hs. unfold recency_column. apply in_map_iff.
  exists (base s). split; [reflexivity | now apply scored_base_In].
Qed.

Lemma monetary_in_column (s : scored_row) :
  In s scored -> In (row_monetary s) (monetary_column t).
Proof.
  intros Hs. unfold monetary_column. apply in_map_iff.
  exists (base s). split; [reflexivity | now apply scored_base_In].
Qed.

Lemma rank_in_column (i : nat) :
  (i < length t)%nat -> In (inject_Z (nth i ranks 0)) (frequency_rank_column t).
Proof.
  intros Hi. unfold frequency_rank_column. fold ranks.
  apply in_map, nth_In. now rewrite ranks_length.
Qed.

Lemma scores_in_range (s : scored_row) :
  In s scored ->
  1 <= r_score s <= 5 /\ 1 <= f_score s <= 5 /\ 1 <= m_score s <= 5.
Proof.
  intros Hs.
  pose proof (bin_edges_bin_id_range _ _ (recency_in_column s Hs)) as Hr.
  pose proof (bin_edges_bin_id_range _ _ (monetary_in_column s Hs)) as Hm.
  rewrite (scored_r_score s Hs), (scored_m_score s Hs).
  destruct (In_nth_error _ _ Hs) as [i Hi].
  destruct (scored_nth i s Hi) as (Hlt & _ & ->).
  pose proof (bin_edges_bin_id_range _ _ (rank_in_column i Hlt)) as Hf.
  fold r_bins in Hr. fold m_bins in Hm. fold f_bins in Hf. lia.
Qed.









End ScoredTable.


Lemma tied_scoring_succeeds : score_rfm tied_rfm = Ok tied_scored.
Proof. vm_compute. reflexivity. Defined.



Example spread_scores :
  map (fun s => (row_recency s, r_score s)) spread_scored
  = [(1, 5); (2, 5); (3, 5); (4, 5); (5, 4); (6, 4); (7, 4); (8, 3);
     (9, 3); (10, 3); (11, 2); (12, 2); (13, 2); (14, 1); (15, 1); (16, 1)] /\
  map (fun k => bin_population k (map r_score spread_scored)) [1; 2; 3; 4; 5]
  = [3; 3; 3; 3; 4].
Proof. vm_compute. split; reflexivity. Qed.

(** The table of sixteen customers with tied recencies is scored without
    error, yet six of its customers, not 16/5 give or take one, get
    r_score 5, and a single one gets r_score 1. *)
Example tied_r_scores :
  map r_score tied_scored = [5; 5; 5; 5; 5; 5; 4; 4; 4; 3; 3; 3; 2; 2; 2; 1] /\
  map (fun k => bin_population k (map r_score tied_scored)) [1; 2; 3; 4; 5]
  = [1; 3; 3; 3; 6].
Proof. vm_compute. split; reflexivity. Qed.


(** ** When binning fails *)

(** A column holding a single value has coinciding edges. *)
Lemma constant_column_edges (x : list Q) (v : Q) :
  x <> [] -> (forall y, In y x -> (y == v)%Q) ->
  all_distinct (bin_edges x 5) = false.
Proof.
  intros Hx Hc.
  pose proof (sort_nonempty Qle_bool x Hx) as Hne.
  assert (Hs : forall y, In y (sort_by Qle_bool x) -> (y == v)%Q)
    by (intros y Hy; apply Hc; now apply sort_by_In in Hy).
  assert (Hlen : (0 < length (sort_by Qle_bool x))%nat)
    by (destruct (sort_by Qle_bool x); [congruence | simpl; lia]).
  rewrite bin_edges_5. cbn [map all_distinct].
  apply andb_false_iff. left. apply negb_false_iff.
  apply existsb_exists. exists (quantile (sort_by Qle_bool x) (5 # 5)).
  split; [simpl; tauto|].
  apply Qeq_bool_iff. rewrite quantile_0, (quantile_1 _ Hne).
  rewrite (Hs (nth 0 (sort_by Qle_bool x) 0%Q)) by (apply nth_In; lia).
  rewrite (Hs (nth (length (sort_by Qle_bool x) - 1) (sort_by Qle_bool x) 0%Q))
    by (apply nth_In; lia).
  reflexivity.
Qed.

Lemma qcut_constant_column (x : list Q) (v : Q) (labels : list Z) :
  (forall y, In y x -> (y == v)%Q) -> qcut x 5 labels = Raise BinEdgesMustBeUnique.
Proof.
  intros Hc. unfold qcut. destruct x as [|a t]; [reflexivity|].
  rewrite (constant_column_edges (a :: t) v); [reflexivity | discriminate | exact Hc].
Qed.

(** A table of fewer than two rows cannot be binned. *)
Lemma qcut_needs_two_rows (x : list Q) (labels sc : list Z) :
  qcut x 5 labels = Ok sc -> (2 <= length x)%nat.
Proof.
  intros H. destruct x as [|a [|b t]]; [discriminate | | simpl; lia].
  rewrite (qcut_constant_column [a] a) in H; [discriminate|].
  intros y [<-|[]]. reflexivity.
Qed.






Lemma score_rfm_total (t : list rfm_row) :
  (exists scored, score_rfm t = Ok scored) \/
  score_rfm t = Raise BinEdgesMustBeUnique.
Proof.
  unfold score_rfm.
  destruct (r_scores t) as [r|e] eqn:Er; simpl;
    [|apply qcut_Raise in Er; destruct Er as [-> _]; now right].
  destruct (f_scores t) as [f|e] eqn:Ef; simpl;
    [|apply qcut_Raise in Ef; destruct Ef as [-> _]; now right].
  destruct (m_scores t) as [m|e] eqn:Em; simpl;
    [|apply qcut_Raise in Em; destruct Em as [-> _]; now right].
  left. eauto.
Qed.

Lemma score_rfm_proper_bins (t : list rfm_row) (scored : list scored_row) :
  score_rfm t = Ok scored ->
  StronglySorted Qlt (bin_edges (recency_column t) 5) /\
  StronglySorted Qlt (bin_edges (frequency_rank_column t) 5) /\
  StronglySorted Qlt (bin_edges (monetary_column t) 5).
Proof.
  intros H. destruct (score_rfm_columns t scored H) as (_ & Hr & Hf & Hm).
  apply qcut_Ok in Hr, Hf, Hm.
  destruct Hr as (Hxr & Hdr & _), Hf as (Hxf & Hdf & _), Hm as (Hxm & Hdm & _).
  repeat split; apply sorted_distinct_strict; try assumption;
    now apply bin_edges_sorted.
Qed.


(** All sixteen customers of the tied table bought once: the frequencies
    are all equal, and the scores follow the order of the table. *)
Example tied_f_scores :
  map (fun r => frequency (metrics r)) tied_rfm = repeat 1 16 /\
  f_scores tied_rfm = Ok [1; 1; 1; 1; 2; 2; 2; 3; 3; 3; 4; 4; 4; 5; 5; 5].
Proof. vm_compute. split; reflexivity. Qed.

(** One recency value for all customers: scoring raises. *)
Example same_day_scoring :
  map (fun r => recency (metrics r)) same_day_rfm = [1; 1; 1] /\
  score_rfm same_day_rfm = Raise BinEdgesMustBeUnique.
Proof. vm_compute. split; reflexivity. Qed.

(** Two customers with different values are scored: the interpolated edges
    are distinct, and the two customers fall into the first and the last
    bin. *)
Example two_customer_scoring :
  bin_edges (recency_column two_customer_rfm) 5
  = [5 # 5; 14 # 5; 23 # 5; 32 # 5; 41 # 5; 50 # 5]%Q /\
  map (fun s => (r_score s, f_score s, m_score s))
      (scored_or_empty (score_rfm two_customer_rfm))
  = [(1, 1, 1); (5, 5, 5)].
Proof. vm_compute. split; reflexivity. Qed.

(** Five customers with the recencies 1, 2, 2, 3, 4: the edges are
    distinct, and no customer falls between 2 and 2.4. *)
Example gap_scoring :
  map (fun r => recency (metrics r)) gap_rfm = [1; 2; 2; 3; 4] /\
  bin_edges (recency_column gap_rfm) 5
  = [5 # 5; 9 # 5; 10 # 5; 12 # 5; 16 # 5; 20 # 5]%Q /\
  map r_score (scored_or_empty (score_rfm gap_rfm)) = [5; 4; 4; 2; 1] /\
  map (fun k => bin_population k (map r_score (scored_or_empty (score_rfm gap_rfm))))
      [1; 2; 3; 4; 5]
  = [1; 1; 0; 2; 1].
Proof. vm_compute. repeat split; reflexivity. Qed.



(** ** The pipeline *)

(** Fewer than four customers with a scored table: the run ends in the
    clustering error. *)
Corollary segmentation_needs_k_customers
    (scaler : list point -> point -> point)
    (fit : list point -> point * point * point * point)
    (ts : list Transaction.row) (cs : list Customer.row) (ps : list Product.row)
    (t : list scored_row) :
  score_rfm (rfm (sales_data ts cs ps) cs) = Ok t ->
  (length t < optimal_k)%nat ->
  segment_customers scaler fit ts cs ps = Raise TooFewSamples.
Proof.
  intros Hs Hn. unfold segment_customers. rewrite Hs. cbn [bind].
  now rewrite (cluster_too_few scaler fit t Hn).
Qed.

Example sample_segmentation :
  segment_customers identity_scaler first_four
    sample_transactions sample_customers sample_products
  = Raise TooFewSamples.
Proof. vm_compute. reflexivity. Qed.

Example tied_segmentation :
  match segment_customers identity_scaler first_four
          tied_transactions tied_customers sample_products with
  | Ok rows => map (fun s => (cluster_label s, segment_name s)) (firstn 7 rows)
  | Raise _ => []
  end
  = [(0, "Potential Loyalists"); (1, "Potential Loyalists");
     (2, "Potential Loyalists"); (3, "Potential Loyalists");
     (3, "Potential Loyalists"); (3, "Potential Loyalists");
     (3, "Potential Loyalists")].
Proof. vm_compute. reflexivity. Qed.

Lemma segments_partition_customers_witness :
  add_cluster_and_segment tied_scored (repeat 0%Z 16) <> [] /\
  (100 - (1 # 4)
   <= Qsum (map percentage
              (segment_profile (add_cluster_and_segment tied_scored (repeat 0%Z 16))))
   <= 100 + (1 # 4))%Q.
Proof.
  assert (Hne : add_cluster_and_segment tied_scored (repeat 0%Z 16) <> [])
    by (vm_compute; discriminate).
  destruct segments_partition_customers as (_ & _ & _ & Hp).
  split; [exact Hne | exact (Hp tied_scored (repeat 0%Z 16) Hne)].
Defined.

(** The profile of the tied table: three segments, sixteen customers. *)
Example tied_segment_profile :
  map (fun p => (segment p, customer_count p, percentage p))
      (segment_profile (add_cluster_and_segment tied_scored (repeat 0 16)))
  = [("At Risk", 4, (250 # 10)%Q); ("Loyal Customers", 5, (312 # 10)%Q);
     ("Potential Loyalists", 7, (438 # 10)%Q)].
Proof. vm_compute. reflexivity. Qed.

(** * Properties of the rest of the script *)

(** ** Row counts of the join *)

Lemma list_sum_const {A} (k : nat) (l : list A) :
  list_sum (map (fun _ => k) l) = (length l * k)%nat.
Proof. induction l as [|a t IH]; simpl; [reflexivity | now rewrite IH]. Qed.

Lemma list_sum_flat_map {A B} (f : A -> list B) (g : B -> nat) (l : list A) :
  list_sum (map g (flat_map f l))
  = list_sum (map (fun a => list_sum (map g (f a))) l).
Proof.
  induction l as [|a t IH]; simpl; [reflexivity|].
  now rewrite map_app, list_sum_app, IH.
Qed.

Lemma merge_length {L R} (lkey : L -> Z) (rkey : R -> Z)
    (left : list L) (right : list R) :
  length (merge lkey rkey left right)
  = list_sum (map (fun l => length (filter (fun r => lkey l =? rkey r) right)) left).
Proof.
  unfold merge. induction left as [|l t IH]; simpl; [reflexivity|].
  now rewrite length_app, length_map, IH.
Qed.

(** X1: every transaction contributes one joined row per pair of a customer
    record and a product record carrying its keys: repeated identifiers in
    the customers or products table multiply the rows. *)
Theorem join_row_count (ts : list Transaction.row) (cs : list Customer.row)
    (ps : list Product.row) :
  length (sales_data ts cs ps)
  = list_sum
      (map (fun t =>
              Nat.mul
                (length (filter (fun c => Transaction.customer_id t
                                          =? Customer.customer_id c) cs))
                (length (filter (fun p => Transaction.product_id t
                                          =? Product.product_id p) ps)))
           ts).
Proof.
  unfold sales_data. rewrite length_map, merge_length.
  unfold merge at 1. rewrite list_sum_flat_map.
  f_equal. apply map_ext. intros t.
  rewrite map_map. cbn [fst]. apply list_sum_const.
Qed.

Lemma filter_absent_key {R} (rkey : R -> Z) (right : list R) (k : Z) :
  ~ In k (map rkey right) -> filter (fun r => k =? rkey r) right = [].
Proof.
  induction right as [|r t IH]; simpl; [reflexivity|].
  intros H. destruct (Z.eqb_spec k (rkey r)) as [E|E]; [exfalso; auto|].
  apply IH. intros Hin. apply H. now right.
Qed.

Lemma existsb_key {R} (rkey : R -> Z) (right : list R) (k : Z) :
  existsb (fun r => k =? rkey r) right = true <-> In k (map rkey right).
Proof.
  rewrite existsb_exists, in_map_iff. split.
  - intros (r & Hr & E). apply Z.eqb_eq in E. eauto.
  - intros (r & E & Hr). exists r. split; [exact Hr | now apply Z.eqb_eq].
Qed.

Lemma merge_unique_filter {L R} (lkey : L -> Z) (rkey : R -> Z)
    (left : list L) (right : list R) :
  NoDup (map rkey right) ->
  map fst (merge lkey rkey left right)
  = filter (fun l => existsb (fun r => lkey l =? rkey r) right) left.
Proof.
  intros Hnd. unfold merge. induction left as [|l t IH]; [reflexivity|].
  cbn [flat_map filter]. rewrite map_app, IH, map_map. cbn [fst].
  destruct (existsb (fun r => lkey l =? rkey r) right) eqn:E.
  - apply existsb_key in E.
    destruct (filter_unique_key rkey right (lkey l) Hnd E) as [r ->].
    reflexivity.
  - rewrite filter_absent_key; [reflexivity|].
    intros H. apply existsb_key in H. congruence.
Qed.

Lemma filter_map_fst {A B} (f : A -> bool) (l : list (A * B)) :
  map fst (filter (fun ab => f (fst ab)) l) = filter f (map fst l).
Proof.
  induction l as [|[a b] t IH]; simpl; [reflexivity|].
  destruct (f a); simpl; now rewrite IH.
Qed.

Lemma filter_filter {A} (f g : A -> bool) (l : list A) :
  filter f (filter g l) = filter (fun a => g a && f a) l.
Proof.
  induction l as [|a t IH]; simpl; [reflexivity|].
  destruct (g a); simpl; [destruct (f a)|]; now rewrite IH.
Qed.

(** X2: with unique identifiers in both lookup tables, the joined data holds
    exactly the transactions whose two keys are known, once each and in the
    order of the transactions table. *)
Theorem join_keeps_order (ts : list Transaction.row) (cs : list Customer.row)
    (ps : list Product.row) :
  NoDup (map Customer.customer_id cs) ->
  NoDup (map Product.product_id ps) ->
  map txn (sales_data ts cs ps)
  = filter (fun t =>
              existsb (fun c => Transaction.customer_id t =? Customer.customer_id c) cs
              && existsb (fun p => Transaction.product_id t =? Product.product_id p) ps)
           ts.
Proof.
  intros Hc Hp. unfold sales_data. rewrite map_map. cbn [txn].
  rewrite <- (map_map fst fst).
  rewrite (merge_unique_filter (fun tc : Transaction.row * Customer.row =>
                                  Transaction.product_id (fst tc))
                               Product.product_id _ ps Hp).
  rewrite (filter_map_fst
             (fun t => existsb (fun p => Transaction.product_id t
                                         =? Product.product_id p) ps)).
  rewrite (merge_unique_filter Transaction.customer_id Customer.customer_id ts cs Hc).
  apply filter_filter.
Qed.

Lemma sample_products_unique : NoDup (map Product.product_id sample_products).
Proof. repeat constructor; simpl; intuition discriminate. Qed.

Lemma join_keeps_order_witness :
  NoDup (map Customer.customer_id sample_customers) /\
  NoDup (map Product.product_id sample_products) /\
  map txn sample_sales
  = filter (fun t =>
              existsb (fun c => Transaction.customer_id t =? Customer.customer_id c)
                      sample_customers
              && existsb (fun p => Transaction.product_id t =? Product.product_id p)
                         sample_products)
           sample_transactions.
Proof.
  split; [exact sample_customers_unique|].
  split; [exact sample_products_unique|].
  exact (join_keeps_order sample_transactions sample_customers sample_products
           sample_customers_unique sample_products_unique).
Defined.

(** ** Derived columns *)

(** X3: the tenure is negative exactly when the transaction is dated before the
    customer joined, by however little: whole days are rounded down. *)
Theorem tenure_sign (s : sales_row) :
  (0 <= customer_tenure_days s <->
   Customer.join_date (cust s) <= transaction_date s) /\
  (customer_tenure_days s < 0 <->
   transaction_date s < Customer.join_date (cust s)) /\
  customer_tenure_days s * one_day
  <= transaction_date s - Customer.join_date (cust s)
  < (customer_tenure_days s + 1) * one_day.
Proof.
  unfold customer_tenure_days, days.
  set (d := transaction_date s - Customer.join_date (cust s)).
  assert (E : transaction_date s = d + Customer.join_date (cust s)) by (unfold d; lia).
  rewrite E. clearbody d. unfold one_day. simpl (86400 * 10 ^ 9).
  repeat split; intros; Z.div_mod_to_equations; lia.
Qed.

Lemma civil_month_range (d : Z) : 1 <= snd (civil_year_month d) <= 12.
Proof.
  unfold civil_year_month. cbv zeta. cbn [snd].
  set (z := d + 719468).
  assert (Hdoe : 0 <= z - z / 146097 * 146097 < 146097)
    by (Z.div_mod_to_equations; lia).
  set (doe := z - z / 146097 * 146097) in *. clearbody doe. clear z.
  assert (Hdoy :
    0 <= doe - (365 * ((doe - doe / 1460 + doe / 36524 - doe / 146096) / 365)
                + (doe - doe / 1460 + doe / 36524 - doe / 146096) / 365 / 4
                - (doe - doe / 1460 + doe / 36524 - doe / 146096) / 365 / 100) <= 365)
    by (Z.div_mod_to_equations; lia).
  set (doy := doe - _) in *. clearbody doy.
  destruct (Z.ltb_spec ((5 * doy + 2) / 153) 10); Z.div_mod_to_equations; lia.
Qed.

(** X4: every joined row gets a month between 1 and 12. *)
Theorem transaction_month_range (s : sales_row) :
  1 <= transaction_month s <= 12.
Proof. apply civil_month_range. Qed.

Example civil_dates :
  map civil_year_month [0; -1; 58; 59; 11016; 11017; 19357; 19358]
  = [(1970, 1); (1969, 12); (1970, 2); (1970, 3);
     (2000, 2); (2000, 3); (2022, 12); (2023, 1)].
Proof. reflexivity. Qed.

(** ** Monthly sales *)

Lemma pair_eqb_eq (a b : Z * Z) : pair_eqb a b = true <-> a = b.
Proof.
  destruct a as [a1 a2], b as [b1 b2]. unfold pair_eqb. simpl.
  rewrite andb_true_iff, !Z.eqb_eq. split; [intros [-> ->] | intros [= -> ->]]; auto.
Qed.

Lemma pair_leb_total (a b : Z * Z) : pair_leb a b = true \/ pair_leb b a = true.
Proof.
  destruct a as [a1 a2], b as [b1 b2]. unfold pair_leb. simpl.
  rewrite !orb_true_iff, !andb_true_iff, !Z.ltb_lt, !Z.eqb_eq, !Z.leb_le. lia.
Qed.

Lemma pair_leb_trans (a b c : Z * Z) :
  pair_leb a b = true -> pair_leb b c = true -> pair_leb a c = true.
Proof.
  destruct a as [a1 a2], b as [b1 b2], c as [c1 c2]. unfold pair_leb. simpl.
  rewrite !orb_true_iff, !andb_true_iff, !Z.ltb_lt, !Z.eqb_eq, !Z.leb_le. lia.
Qed.

Lemma monthly_sales_keys (sales : list sales_row) :
  map (fun r => (MonthlySales.year r, MonthlySales.month r)) (monthly_sales sales)
  = group_keys pair_eqb pair_leb year_month sales.
Proof.
  unfold monthly_sales. rewrite map_map. cbn [MonthlySales.year MonthlySales.month monthly_agg].
  rewrite <- (groupby_keys pair_eqb pair_leb year_month sales).
  apply map_ext. now intros [[y m] g].
Qed.

(** X5: the transaction counts of the monthly table add up to the number of
    joined rows: every sale is counted in one month, once. *)
Theorem monthly_sales_counts (sales : list sales_row) :
  Zsum (map MonthlySales.transaction_count (monthly_sales sales))
  = Z.of_nat (length sales).
Proof.
  unfold monthly_sales. rewrite !map_map.
  cbn [MonthlySales.transaction_count monthly_agg].
  apply (group_sizes _ _ _ pair_eqb_eq).
Qed.

Lemma sorted_NoDup_strict {A} (leb : A -> A -> bool) (l : list A) :
  StronglySorted (fun a b => leb a b = true) l -> NoDup l ->
  StronglySorted (fun a b => leb a b = true /\ a <> b) l.
Proof.
  induction 1 as [|a t _ IH Ha]; intros Hnd; constructor;
    inversion Hnd as [|? ? Hnot Hnd']; subst.
  - now apply IH.
  - rewrite Forall_forall in *. intros b Hb. split; [now apply Ha|].
    intros ->. contradiction.
Qed.

(** X6: the monthly table has one row per calendar month with sales, ordered by
    year and, within a year, by month; every month lies in 1..12. *)
Theorem monthly_sales_order (sales : list sales_row) :
  StronglySorted
    (fun a b => MonthlySales.year a < MonthlySales.year b \/
                (MonthlySales.year a = MonthlySales.year b /\
                 MonthlySales.month a < MonthlySales.month b))
    (monthly_sales sales) /\
  (forall r, In r (monthly_sales sales) ->
     1 <= MonthlySales.month r <= 12 /\
     exists s, In s sales /\ transaction_year s = MonthlySales.year r /\
               transaction_month s = MonthlySales.month r) /\
  (forall s, In s sales ->
     exists r, In r (monthly_sales sales) /\
               MonthlySales.year r = transaction_year s /\
               MonthlySales.month r = transaction_month s).
Proof.
  pose proof (monthly_sales_keys sales) as Hk.
  split; [|split].
  - assert (Hs : StronglySorted (fun a b => pair_leb a b = true /\ a <> b)
                   (map (fun r => (MonthlySales.year r, MonthlySales.month r))
                        (monthly_sales sales))).
    { rewrite Hk. apply sorted_NoDup_strict.
      - apply sort_by_sorted; [apply pair_leb_total | apply pair_leb_trans].
      - apply (group_keys_NoDup _ _ _ pair_eqb_eq). }
    clear Hk. induction (monthly_sales sales) as [|a t IH]; [constructor|].
    simpl in Hs. apply StronglySorted_inv in Hs. destruct Hs as [Hs Ha].
    constructor; [now apply IH|].
    rewrite Forall_forall in *. intros b Hb.
    destruct (Ha _ (in_map _ _ _ Hb)) as [Hle Hne].
    unfold pair_leb in Hle. simpl in Hle.
    rewrite orb_true_iff, andb_true_iff, Z.ltb_lt, Z.eqb_eq, Z.leb_le in Hle.
    destruct Hle as [H|[H1 H2]]; [now left|right]. split; [exact H1|].
    destruct (Z.eq_dec (MonthlySales.month a) (MonthlySales.month b)) as [E|E]; [|lia].
    exfalso. apply Hne. now rewrite H1, E.
  - intros r Hr.
    assert (Hin : In (MonthlySales.year r, MonthlySales.month r)
                     (group_keys pair_eqb pair_leb year_month sales)).
    { rewrite <- Hk. now apply (in_map (fun r => (MonthlySales.year r, MonthlySales.month r))). }
    apply (group_keys_In _ _ _ pair_eqb_eq) in Hin. apply in_map_iff in Hin.
    destruct Hin as (s & E & Hs). unfold year_month in E. injection E as Ey Em.
    split; [rewrite <- Em; apply civil_month_range | eauto].
  - intros s Hs.
    assert (Hin : In (year_month s) (group_keys pair_eqb pair_leb year_month sales))
      by (apply (group_keys_In _ _ _ pair_eqb_eq); now apply in_map).
    rewrite <- Hk in Hin. apply in_map_iff in Hin.
    destruct Hin as (r & E & Hr). unfold year_month in E. injection E as Ey Em. eauto.
Qed.

(** ** Period labels and the combined score *)

Lemma astype_str_read (z : Z) :
  NilZero.int_of_string (astype_str z) = Some (Z.to_int z).
Proof.
  unfold astype_str. apply NilZero.isi.
  - destruct z; simpl; try discriminate.
    intros [= E]. now apply (DecimalPos.Unsigned.to_uint_nonnil p).
  - destruct z; simpl; try discriminate.
    intros [= E]. now apply (DecimalPos.Unsigned.to_uint_nonnil p).
Qed.

(** Printing an integer loses nothing. *)
Lemma astype_str_inj (a b : Z) : astype_str a = astype_str b -> a = b.
Proof.
  intros E. apply (f_equal NilZero.int_of_string) in E.
  rewrite !astype_str_read in E. injection E as E.
  rewrite <- (DecimalZ.of_to a), <- (DecimalZ.of_to b). now rewrite E.
Qed.

Lemma string_length_app (s t : string) :
  String.length (s ++ t)%string = (String.length s + String.length t)%nat.
Proof. induction s as [|c s IH]; simpl; [reflexivity | now rewrite IH]. Qed.

Lemma string_app_inj_tail (s1 s2 t1 t2 : string) :
  String.length t1 = String.length t2 -> (s1 ++ t1 = s2 ++ t2)%string ->
  s1 = s2 /\ t1 = t2.
Proof.
  intros Hl. revert s2. induction s1 as [|c s1 IH]; intros s2 E.
  - destruct s2 as [|c2 s2]; [auto|]. exfalso.
    apply (f_equal String.length) in E. simpl in E.
    rewrite string_length_app in E. lia.
  - destruct s2 as [|c2 s2].
    + exfalso. apply (f_equal String.length) in E. simpl in E.
      rewrite string_length_app in E. lia.
    + simpl in E. injection E as Ec E. destruct (IH s2 E) as [-> ->]. now subst.
Qed.

Lemma month_cases (m : Z) :
  1 <= m <= 12 ->
  m = 1 \/ m = 2 \/ m = 3 \/ m = 4 \/ m = 5 \/ m = 6 \/
  m = 7 \/ m = 8 \/ m = 9 \/ m = 10 \/ m = 11 \/ m = 12.
Proof. lia. Qed.

Lemma zfill_month_length (m : Z) :
  1 <= m <= 12 -> String.length (zfill 2 (astype_str m)) = 2%nat.
Proof.
  intros H. apply month_cases in H.
  repeat (destruct H as [->|H]; [reflexivity|]). now subst.
Qed.

Lemma zfill_month_inj (m m' : Z) :
  1 <= m <= 12 -> 1 <= m' <= 12 ->
  zfill 2 (astype_str m) = zfill 2 (astype_str m') -> m = m'.
Proof.
  intros H H'. apply month_cases in H. apply month_cases in H'.
  repeat (destruct H as [->|H]);
    repeat (destruct H' as [->|H']); subst;
    (reflexivity || (intros E; vm_compute in E; discriminate)).
Qed.

Lemma monthly_sales_months (sales : list sales_row) (r : MonthlySales.row) :
  In r (monthly_sales sales) -> 1 <= MonthlySales.month r <= 12.
Proof.
  intros Hr. apply (in_map (fun r => (MonthlySales.year r, MonthlySales.month r))) in Hr.
  rewrite monthly_sales_keys in Hr.
  apply (group_keys_In _ _ _ pair_eqb_eq) in Hr. apply in_map_iff in Hr.
  destruct Hr as (s & E & _). unfold year_month in E. injection E as _ Em.
  rewrite <- Em. apply civil_month_range.
Qed.

(** X7: a period label is the year, a dash and a two-character month, and no two
    months of the table share a label. *)
Theorem period_identifies_month (sales : list sales_row)
    (r r' : MonthlySales.row) :
  In r (monthly_sales sales) -> In r' (monthly_sales sales) ->
  MonthlySales.period r
  = (astype_str (MonthlySales.year r) ++ "-"
     ++ zfill 2 (astype_str (MonthlySales.month r)))%string /\
  String.length (zfill 2 (astype_str (MonthlySales.month r))) = 2%nat /\
  (MonthlySales.period r = MonthlySales.period r' ->
   MonthlySales.year r = MonthlySales.year r' /\
   MonthlySales.month r = MonthlySales.month r').
Proof.
  intros Hr Hr'.
  pose proof (monthly_sales_months sales r Hr) as Hm.
  pose proof (monthly_sales_months sales r' Hr') as Hm'.
  assert (Hp : forall x, In x (monthly_sales sales) ->
             MonthlySales.period x
             = (astype_str (MonthlySales.year x) ++ "-"
                ++ zfill 2 (astype_str (MonthlySales.month x)))%string).
  { intros x Hx. unfold monthly_sales in Hx. apply in_map_iff in Hx.
    now destruct Hx as (g & <- & _). }
  split; [now apply Hp|]. split; [now apply zfill_month_length|].
  rewrite (Hp r Hr), (Hp r' Hr'). intros E.
  apply string_app_inj_tail in E.
  - destruct E as [Ey Em]. split; [now apply astype_str_inj|].
    injection Em as Em. now apply zfill_month_inj.
  - simpl. now rewrite !zfill_month_length.
Qed.

Lemma period_identifies_month_witness :
  In (monthly_agg ((2022, 1), sample_sales)) (monthly_sales sample_sales) /\
  MonthlySales.period (monthly_agg ((2022, 1), sample_sales)) = "2022-01".
Proof.
  assert (H : In (monthly_agg ((2022, 1), sample_sales)) (monthly_sales sample_sales))
    by (vm_compute; left; reflexivity).
  split; [exact H|].
  destruct (period_identifies_month sample_sales _ _ H H) as (E & _).
  rewrite E. reflexivity.
Defined.

Lemma digit_str (z : Z) :
  0 <= z <= 9 ->
  exists c, astype_str z = String c EmptyString /\ digit_value c = Some z.
Proof.
  intros H.
  assert (E : z = 0 \/ z = 1 \/ z = 2 \/ z = 3 \/ z = 4 \/ z = 5 \/
              z = 6 \/ z = 7 \/ z = 8 \/ z = 9) by lia.
  repeat (destruct E as [->|E]; [eexists; split; reflexivity|]).
  subst. eexists; split; reflexivity.
Qed.

Lemma rfm_score_digits (r f m : Z) :
  0 <= r <= 9 -> 0 <= f <= 9 -> 0 <= m <= 9 ->
  read_rfm_score (astype_str r ++ astype_str f ++ astype_str m)%string
  = Some (r, f, m).
Proof.
  intros Hr Hf Hm.
  destruct (digit_str r Hr) as (a & -> & Ea).
  destruct (digit_str f Hf) as (b & -> & Eb).
  destruct (digit_str m Hm) as (c & -> & Ec).
  simpl. now rewrite Ea, Eb, Ec.
Qed.

(** X8: on a scored table the combined score has three characters, one digit per
    score, and reading the digits gives the three scores back. *)
Theorem rfm_score_round_trip (t : list rfm_row) (scored : list scored_row)
    (s : scored_row) :
  score_rfm t = Ok scored -> In s scored ->
  String.length (rfm_score s) = 3%nat /\
  read_rfm_score (rfm_score s) = Some (r_score s, f_score s, m_score s).
Proof.
  intros H Hs.
  destruct (scores_in_range t scored H s Hs) as (Hr & Hf & Hm).
  assert (E : read_rfm_score (rfm_score s) = Some (r_score s, f_score s, m_score s))
    by (apply rfm_score_digits; lia).
  split; [|exact E].
  unfold read_rfm_score in E.
  destruct (rfm_score s) as [|a [|b [|c [|d rest]]]]; try discriminate.
  reflexivity.
Qed.

Lemma rfm_score_round_trip_witness :
  score_rfm tied_rfm = Ok tied_scored /\
  Forall (fun s => read_rfm_score (rfm_score s)
                   = Some (r_score s, f_score s, m_score s)) tied_scored.
Proof.
  split; [exact tied_scoring_succeeds|].
  apply Forall_forall. intros s Hs.
  exact (proj2 (rfm_score_round_trip tied_rfm tied_scored s tied_scoring_succeeds Hs)).
Defined.

(** ** The customer summary and the RFM table *)

Lemma fold_left_min_le (l : list Z) (d : Z) :
  fold_left Z.min l d <= d /\ forall x, In x l -> fold_left Z.min l d <= x.
Proof.
  revert d. induction l as [|y t IH]; intros d; simpl.
  - split; [lia | tauto].
  - destruct (IH (Z.min d y)) as [H1 H2]. split; [lia|].
    intros x [->|Hx]; [lia | now apply H2].
Qed.

Lemma fold_left_min_In (l : list Z) (d : Z) :
  fold_left Z.min l d = d \/ In (fold_left Z.min l d) l.
Proof.
  revert d. induction l as [|y t IH]; intros d; simpl; [now left|].
  destruct (IH (Z.min d y)) as [H|H]; [|now right; right].
  rewrite H. destruct (Z.min_spec d y) as [[_ ->]|[_ ->]]; auto.
Qed.

Lemma min_date_is_min (l : list Z) (m : Z) : min_date l = Some m -> is_min m l.
Proof.
  destruct l as [|d t]; simpl; [discriminate|].
  intros E. inversion E; subst. split.
  - destruct (fold_left_min_In t d) as [->|H]; [now left | now right].
  - destruct (fold_left_min_le t d) as [H1 H2].
    intros x [->|Hx]; [exact H1 | now apply H2].
Qed.

Lemma unique_length_le {K} (eqb : K -> K -> bool) (ks : list K) :
  (length (unique eqb ks) <= length ks)%nat.
Proof.
  induction ks as [|k t IH]; simpl; [lia|].
  pose proof (filter_length_le (fun k' => negb (eqb k' k)) (unique eqb t)). lia.
Qed.



(** X10: every row of the customer summary has a first and a last purchase, both
    dates of transactions of that customer and the earliest and the latest
    of them; the category diversity is at least one and at most the number
    of transactions. *)
Theorem customer_summary_rows (sales : list sales_row) (c : CustomerSummary.row) :
  In c (customer_summary sales) ->
  exists first last,
    CustomerSummary.first_purchase c = Some first /\
    CustomerSummary.last_purchase c = Some last /\
    first <= last /\
    is_min first (map transaction_date
                    (filter (fun s => customer_id s =? CustomerSummary.customer_id c)
                            sales)) /\
    is_max last (map transaction_date
                   (filter (fun s => customer_id s =? CustomerSummary.customer_id c)
                           sales)) /\
    1 <= CustomerSummary.category_diversity c
      <= CustomerSummary.transaction_count c.
Proof.
  unfold customer_summary. rewrite in_map_iff. intros ([k g] & <- & Hg).
  apply (groupby_In _ _ _ Zeqb_eq_iff) in Hg. destruct Hg as [Hk ->]. cbn.
  pose proof (group_nonempty Z.eqb customer_id Zeqb_eq_iff sales k Hk) as Hne.
  set (g := filter (fun r => customer_id r =? k) sales) in *.
  destruct g as [|s0 g'] eqn:Eg; [congruence|]. rewrite <- Eg in *.
  assert (Hd : map transaction_date g <> []) by (rewrite Eg; discriminate).
  destruct (max_date_nonempty _ Hd) as [last El].
  assert (Ef : exists first, min_date (map transaction_date g) = Some first)
    by (rewrite Eg; simpl; eauto).
  destruct Ef as [first Ef].
  exists first, last. rewrite Ef, El.
  pose proof (min_date_is_min _ _ Ef) as Hmin.
  pose proof (max_date_is_max _ _ El) as Hmax.
  split; [reflexivity|]. split; [reflexivity|].
  split; [apply Hmin, Hmax|]. split; [exact Hmin|]. split; [exact Hmax|].
  split.
  - rewrite Eg. simpl. lia.
  - pose proof (unique_length_le String.eqb (map product_category g)) as H.
    rewrite length_map in H. lia.
Qed.

Lemma customer_summary_rows_witness :
  In (customer_agg (1, filter (fun s => customer_id s =? 1) sample_sales))
     (customer_summary sample_sales) /\
  exists first last,
    CustomerSummary.first_purchase
      (customer_agg (1, filter (fun s => customer_id s =? 1) sample_sales))
    = Some first /\
    CustomerSummary.last_purchase
      (customer_agg (1, filter (fun s => customer_id s =? 1) sample_sales))
    = Some last /\
    first <= last.
Proof.
  assert (H : In (customer_agg (1, filter (fun s => customer_id s =? 1) sample_sales))
                 (customer_summary sample_sales))
    by (vm_compute; left; reflexivity).
  split; [exact H|].
  destruct (customer_summary_rows sample_sales _ H)
    as (first & last & Hf & Hl & Hle & _).
  exists first, last. auto.
Defined.

Lemma Zleb_total (a b : Z) : (a <=? b) = true \/ (b <=? a) = true.
Proof. rewrite !Z.leb_le. lia. Qed.

Lemma Zleb_trans (a b c : Z) :
  (a <=? b) = true -> (b <=? c) = true -> (a <=? c) = true.
Proof. rewrite !Z.leb_le. lia. Qed.

Lemma group_keys_Z_increasing {A} (key : A -> Z) (rows : list A) :
  StronglySorted Z.lt (group_keys Z.eqb Z.leb key rows).
Proof.
  apply StronglySorted_impl
    with (R := fun a b => (a <=? b) = true /\ a <> b).
  - intros a b [H1 H2]. apply Z.leb_le in H1. lia.
  - apply sorted_NoDup_strict.
    + apply sort_by_sorted; [apply Zleb_total | apply Zleb_trans].
    + apply (group_keys_NoDup _ _ _ Zeqb_eq_iff).
Qed.

(** X12: the aggregated RFM table and the customer summary list the customers by
    increasing identifier. *)
Theorem rfm_ordered_by_customer (sales : list sales_row) :
  StronglySorted Z.lt (map m_customer_id (rfm_groupby sales)) /\
  StronglySorted Z.lt (map CustomerSummary.customer_id (customer_summary sales)).
Proof.
  split.
  - rewrite rfm_groupby_keys. apply group_keys_Z_increasing.
  - unfold customer_summary. rewrite map_map. cbn [CustomerSummary.customer_id customer_agg].
    change (map (fun x : Z * list sales_row => fst x)
                (groupby Z.eqb Z.leb customer_id sales))
      with (map fst (groupby Z.eqb Z.leb customer_id sales)).
    rewrite groupby_keys. apply group_keys_Z_increasing.
Qed.

(** X13: every row of the RFM table carries the metrics of one aggregated row and
    the age, gender and location of a customer record with the same
    identifier. *)
Theorem rfm_attributes (sales : list sales_row) (cs : list Customer.row)
    (r : rfm_row) :
  In r (rfm sales cs) ->
  In (metrics r) (rfm_groupby sales) /\
  exists c, In c cs /\
            Customer.customer_id c = rfm_customer_id r /\
            rfm_age r = Customer.customer_age c /\
            rfm_gender r = Customer.gender c /\
            rfm_location r = Customer.location c.
Proof.
  unfold rfm. rewrite in_map_iff. intros ([m c] & <- & H).
  apply merge_In in H. destruct H as (Hm & Hc & Hk).
  split; [exact Hm|]. exists c. cbn. auto.
Qed.

Lemma rfm_attributes_witness :
  In (mk_rfm (mk_metrics 2 8 1 (500 # 100)) 51 "M" "Boston")
     (rfm sample_sales sample_customers) /\
  In (mk_metrics 2 8 1 (500 # 100)) (rfm_groupby sample_sales).
Proof.
  assert (H : In (mk_rfm (mk_metrics 2 8 1 (500 # 100)) 51 "M" "Boston")
                 (rfm sample_sales sample_customers))
    by (vm_compute; right; left; reflexivity).
  split; [exact H|].
  exact (proj1 (rfm_attributes sample_sales sample_customers _ H)).
Defined.

(** ** The highest values *)

Lemma highest_is_last_edge (x : list Q) (v : Q) :
  In v x -> (forall w, In w x -> (w <= v)%Q) -> (v == nth 5 (bin_edges x 5) 0)%Q.
Proof.
  intros Hv Hmax. rewrite bin_edges_5. simpl nth.
  assert (Hne : sort_by Qle_bool x <> [])
    by (apply sort_nonempty; destruct x; [contradiction | congruence]).
  rewrite (quantile_1 _ Hne). apply Qle_antisym.
  - apply sorted_bounds; [apply sort_Q_sorted | now apply sort_by_In].
  - apply Hmax. apply (sort_by_In Qle_bool). apply nth_In.
    destruct (sort_by Qle_bool x); [congruence | simpl; lia].
Qed.

Lemma bin_id_last (e0 e1 e2 e3 e4 e5 v : Q) :
  StronglySorted Qlt [e0; e1; e2; e3; e4; e5] -> (v == e5)%Q ->
  bin_id [e0; e1; e2; e3; e4; e5] v = 5%nat.
Proof.
  intros Hs Hv. apply six_increasing in Hs.
  destruct Hs as (H01 & H12 & H23 & H34 & H45).
  unfold bin_id, Qlt_bool. cbn [hd filter].
  destruct (Qeq_bool v e0) eqn:E;
    [apply Qeq_bool_iff in E; exfalso; lra|].
  case_le v e0; case_le v e1; case_le v e2; case_le v e3; case_le v e4; case_le v e5.
  reflexivity.
Qed.

Lemma bin_edges_bin_id_last (x : list Q) (v : Q) :
  StronglySorted Qlt (bin_edges x 5) -> In v x ->
  (forall w, In w x -> (w <= v)%Q) -> bin_id (bin_edges x 5) v = 5%nat.
Proof.
  intros Hs Hv Hmax. pose proof (highest_is_last_edge x v Hv Hmax) as E.
  destruct (six_edges x) as (e0 & e1 & e2 & e3 & e4 & e5 & Ee).
  rewrite Ee in *. simpl nth in E. now apply bin_id_last.
Qed.

(** X14: on a scored table the customers with the highest recency get r_score 1
    and those with the highest monetary value get m_score 5. *)
Theorem highest_values_scored (t : list rfm_row) (scored : list scored_row)
    (s : scored_row) :
  score_rfm t = Ok scored -> In s scored ->
  ((forall s', In s' scored -> row_recency s' <= row_recency s) -> r_score s = 1) /\
  ((forall s', In s' scored -> (row_monetary s' <= row_monetary s)%Q) -> m_score s = 5).
Proof.
  intros H Hs. destruct (score_rfm_proper_bins t scored H) as (Hr & _ & Hm).
  split; intros Hmax.
  - rewrite (scored_r_score t scored H s Hs).
    rewrite (bin_edges_bin_id_last _ _ Hr); [reflexivity | |].
    + now apply (recency_in_column t scored H).
    + intros w Hw. unfold recency_column in Hw. apply in_map_iff in Hw.
      destruct Hw as (row & <- & Hrow). rewrite <- (scored_base t scored H) in Hrow.
      apply in_map_iff in Hrow. destruct Hrow as (s' & <- & Hs').
      rewrite <- Zle_Qle. now apply Hmax.
  - rewrite (scored_m_score t scored H s Hs).
    rewrite (bin_edges_bin_id_last _ _ Hm); [reflexivity | |].
    + now apply (monetary_in_column t scored H).
    + intros w Hw. unfold monetary_column in Hw. apply in_map_iff in Hw.
      destruct Hw as (row & <- & Hrow). rewrite <- (scored_base t scored H) in Hrow.
      apply in_map_iff in Hrow. destruct Hrow as (s' & <- & Hs').
      now apply Hmax.
Qed.

Lemma highest_values_scored_witness :
  score_rfm tied_rfm = Ok tied_scored /\
  Forall (fun s => row_recency s = 6 -> r_score s = 1) tied_scored.
Proof.
  split; [exact tied_scoring_succeeds|].
  apply Forall_forall. intros s Hs E.
  apply (proj1 (highest_values_scored tied_rfm tied_scored s
                  tied_scoring_succeeds Hs)).
  intros s' Hs'. rewrite E. clear E Hs.
  vm_compute in Hs'.
  repeat (destruct Hs' as [<-|Hs']; [vm_compute; discriminate|]).
  contradiction.
Defined.

(** ** The samples of the variance test *)

Lemma flat_map_groups_perm {A K} (eqb : K -> K -> bool) (key : A -> K)
    (ks : list K) (l : list A) :
  (forall a b, eqb a b = true <-> a = b) ->
  NoDup ks -> (forall a, In a l -> In (key a) ks) ->
  Permutation (flat_map (fun k => filter (fun a => eqb (key a) k) l) ks) l.
Proof.
  intros Heq Hnd. induction l as [|a t IH]; intros Hcov.
  - clear Hnd Hcov. induction ks as [|k ks' IHk]; simpl; [constructor | exact IHk].
  - apply Permutation_trans
      with (a :: flat_map (fun k => filter (fun a => eqb (key a) k) t) ks);
      [|apply perm_skip, IH; intros; apply Hcov; now right].
    assert (Hin : In (key a) ks) by (apply Hcov; now left).
    clear IH Hcov.
    set (F1 := fun k => filter (fun a0 => eqb (key a0) k) (a :: t)).
    set (F0 := fun k => filter (fun a0 => eqb (key a0) k) t).
    assert (Hhit : forall k, eqb (key a) k = true -> F1 k = a :: F0 k)
      by (intros k E; unfold F1, F0; simpl; now rewrite E).
    assert (Hmiss : forall k, eqb (key a) k = false -> F1 k = F0 k)
      by (intros k E; unfold F1, F0; simpl; now rewrite E).
    clearbody F1 F0.
    induction Hnd as [|k ks' Hk Hnd IHk]; [contradiction|].
    change (Permutation (F1 k ++ flat_map F1 ks') (a :: F0 k ++ flat_map F0 ks')).
    destruct (eqb (key a) k) eqn:E.
    + rewrite (Hhit k E). apply Heq in E. subst k. cbn [app]. apply perm_skip.
      apply Permutation_app_head.
      assert (Hsame : flat_map F1 ks' = flat_map F0 ks').
      { clear IHk Hnd Hin. induction ks' as [|k ks IH]; [reflexivity|].
        change (F1 k ++ flat_map F1 ks = F0 k ++ flat_map F0 ks).
        rewrite Hmiss, IH; [reflexivity | |].
        - intros H. apply Hk. now right.
        - destruct (eqb (key a) k) eqn:E; [|reflexivity].
          exfalso. apply Hk. left. symmetry. now apply Heq. }
      rewrite Hsame. apply Permutation_refl.
    + rewrite (Hmiss k E). destruct Hin as [->|Hin];
        [rewrite (proj2 (Heq (key a) (key a)) eq_refl) in E; discriminate|].
      eapply Permutation_trans; [apply Permutation_app_head, (IHk Hin)|].
      apply Permutation_sym, Permutation_middle.
Qed.

(** X15: the samples handed to the variance test split the customers by segment:
    together they hold every monetary value of the table once, none of them
    is empty, and there is one sample per row of the segment profile. *)
Theorem segment_spending_partition (t : list segmented_row) :
  Permutation (concat (segment_spending t))
              (map (fun s => monetary (seg_metrics s)) t) /\
  Forall (fun sample => sample <> []) (segment_spending t) /\
  length (segment_spending t) = length (segment_profile t).
Proof.
  unfold segment_spending. split; [|split].
  - rewrite <- (map_map (fun name => filter (fun s => String.eqb (segment_name s) name) t)
                        (map (fun s => monetary (seg_metrics s)))).
    rewrite <- concat_map, <- flat_map_concat_map.
    apply Permutation_map.
    apply (flat_map_groups_perm String.eqb segment_name _ t String_eqb_eq_iff).
    + apply (unique_NoDup _ String_eqb_eq_iff).
    + intros a Ha. apply (unique_In String.eqb String.leb String_eqb_eq_iff). now apply in_map.
  - apply Forall_forall. intros sample Hs. apply in_map_iff in Hs.
    destruct Hs as (name & <- & Hn).
    apply (proj1 (unique_In String.eqb String.leb String_eqb_eq_iff _ _)) in Hn.
    intros E. apply map_eq_nil in E.
    exact (group_nonempty String.eqb segment_name String_eqb_eq_iff t name Hn E).
  - unfold segment_profile, groupby, group_keys.
    now rewrite !length_map, sort_by_length.
Qed.

(** ** Key business metrics *)

Lemma count_if_le_length {A} (f : A -> bool) (l : list A) :
  0 <= count_if f l <= Z.of_nat (length l).
Proof.
  unfold count_if. pose proof (filter_length_le f l). lia.
Qed.

Lemma total_customers_rows (ts : list Transaction.row) (cs : list Customer.row)
    (ps : list Product.row) :
  NoDup (map Customer.customer_id cs) ->
  Insights.total_customers (sales_data ts cs ps)
  = Z.of_nat (length (rfm (sales_data ts cs ps) cs)).
Proof.
  intros Hnd. unfold Insights.total_customers. f_equal.
  rewrite <- (length_map metrics (rfm (sales_data ts cs ps) cs)).
  rewrite (rfm_metrics_column ts cs ps Hnd).
  rewrite <- (length_map m_customer_id), rfm_groupby_keys.
  unfold group_keys. now rewrite sort_by_length.
Qed.

Lemma ratio_range (a b : Z) :
  0 <= a <= b -> 0 < b -> (0 <= inject_Z a / inject_Z b * 100 <= 100)%Q.
Proof.
  intros Ha Hb.
  assert (Hbq : (0 < inject_Z b)%Q) by (change 0%Q with (inject_Z 0); now rewrite <- Zlt_Qlt).
  assert (Haq : (0 <= inject_Z a)%Q) by (change 0%Q with (inject_Z 0); rewrite <- Zle_Qle; lia).
  assert (Hab : (inject_Z a <= inject_Z b)%Q) by (rewrite <- Zle_Qle; lia).
  split.
  - apply Qmult_le_0_compat; [|discriminate].
    apply Qle_shift_div_l; [exact Hbq | lra].
  - assert (H1 : (inject_Z a / inject_Z b <= 1)%Q)
      by (apply Qle_shift_div_r; [exact Hbq | lra]).
    lra.
Qed.

(** X16: with unique customer identifiers, the number of distinct customers of
    the sales data is the number of rows of the RFM table, the repeat
    customers are among them, and the repeat rate is a percentage between 0
    and 100; the division fails exactly on empty sales data. *)
Theorem repeat_rate_is_percentage (ts : list Transaction.row)
    (cs : list Customer.row) (ps : list Product.row) :
  NoDup (map Customer.customer_id cs) ->
  let sales := sales_data ts cs ps in
  let table := rfm sales cs in
  Insights.total_customers sales = Z.of_nat (length table) /\
  0 <= Insights.repeat_customers table <= Insights.total_customers sales /\
  ((sales = [] /\ Insights.repeat_rate sales table = None) \/
   (sales <> [] /\
    exists rate, Insights.repeat_rate sales table = Some rate /\
                 (0 <= rate <= 100)%Q)).
Proof.
  intros Hnd sales table.
  pose proof (total_customers_rows ts cs ps Hnd) as Ht. fold sales table in Ht.
  pose proof (count_if_le_length (fun r => frequency (metrics r) >? 1) table) as Hc.
  fold (Insights.repeat_customers table) in Hc.
  split; [exact Ht|]. split; [lia|].
  unfold Insights.repeat_rate.
  destruct (Z.eqb_spec (Insights.total_customers sales) 0) as [E|E].
  - left. split; [|reflexivity].
    unfold Insights.total_customers in E.
    destruct sales as [|s rest]; [reflexivity|]. simpl in E. lia.
  - right. split.
    + intros E0. apply E. now rewrite E0.
    + eexists. split; [reflexivity|]. apply ratio_range; lia.
Qed.

Lemma repeat_rate_is_percentage_witness :
  NoDup (map Customer.customer_id sample_customers) /\
  Insights.repeat_rate sample_sales (rfm sample_sales sample_customers)
  = Some (100 # 3) /\
  Insights.total_customers sample_sales
  = Z.of_nat (length (rfm sample_sales sample_customers)).
Proof.
  split; [exact sample_customers_unique|].
  split; [vm_compute; reflexivity|].
  exact (proj1 (repeat_rate_is_percentage sample_transactions sample_customers
                  sample_products sample_customers_unique)).
Defined.

(** ** Outcomes of the segmentation run *)

Lemma cluster_Ok (scaler : list point -> point -> point)
    (fit : list point -> point * point * point * point)
    (t : list scored_row) (labels : list Z) :
  cluster scaler fit t = Ok labels ->
  (optimal_k <= length t)%nat /\ length labels = length t /\
  Forall (fun l => 0 <= l < 4) labels.
Proof.
  unfold cluster, fit_predict, features. rewrite !length_map.
  destruct (Nat.ltb_spec (length t) optimal_k) as [H|H]; [discriminate|].
  match goal with |- context [fit ?X] => destruct (fit X) as [[[c0 c1] c2] c3] end.
  intros E. inversion E; subst labels. split; [exact H|]. split.
  - now rewrite !length_map.
  - apply Forall_forall. intros l Hl. apply in_map_iff in Hl.
    destruct Hl as (x & <- & _).
    pose proof (nearest_bound x c0 [c1; c2; c3]) as Hn. simpl in Hn. lia.
Qed.

Lemma cluster_Raise (scaler : list point -> point -> point)
    (fit : list point -> point * point * point * point)
    (t : list scored_row) (e : exn) :
  cluster scaler fit t = Raise e ->
  e = TooFewSamples /\ (length t < optimal_k)%nat.
Proof.
  unfold cluster, fit_predict, features. rewrite !length_map.
  destruct (Nat.ltb_spec (length t) optimal_k) as [H|H].
  - intros E. inversion E. auto.
  - match goal with |- context [fit ?X] => destruct (fit X) as [[[c0 c1] c2] c3] end.
    discriminate.
Qed.

Lemma combine_fst {A B} (l : list A) (l' : list B) :
  length l' = length l -> map fst (combine l l') = l.
Proof.
  revert l'. induction l as [|a t IH]; intros [|b t'] H; simpl in *;
    try reflexivity; try discriminate.
  rewrite IH; [reflexivity | lia].
Qed.

Lemma add_cluster_and_segment_scored (t : list scored_row) (labels : list Z) :
  length labels = length t ->
  map scored (add_cluster_and_segment t labels) = t.
Proof.
  intros H. unfold add_cluster_and_segment. rewrite map_map. cbn [scored].
  now apply combine_fst.
Qed.

(** X17: a run ends in one of three ways: with a labelled table, which takes at
    least four customers; with the binning error; or, when two or three
    customers were scored, with the clustering error. *)
Theorem segmentation_outcomes
    (scaler : list point -> point -> point)
    (fit : list point -> point * point * point * point)
    (ts : list Transaction.row) (cs : list Customer.row) (ps : list Product.row) :
  let table := rfm (sales_data ts cs ps) cs in
  (exists rows, segment_customers scaler fit ts cs ps = Ok rows /\
                length rows = length table /\ (4 <= length table)%nat) \/
  (segment_customers scaler fit ts cs ps = Raise BinEdgesMustBeUnique /\
   score_rfm table = Raise BinEdgesMustBeUnique) \/
  (segment_customers scaler fit ts cs ps = Raise TooFewSamples /\
   (exists t, score_rfm table = Ok t) /\
   (2 <= length table <= 3)%nat).
Proof.
  intros table. unfold segment_customers. fold table.
  destruct (score_rfm_total table) as [[t Ht]|Ht].
  - rewrite Ht. cbn [bind].
    pose proof (scored_length table t Ht) as Hl.
    destruct (cluster scaler fit t) as [labels|e] eqn:Ec; cbn [bind].
    + left. apply cluster_Ok in Ec. destruct Ec as (Hk & Hlen & _).
      eexists. split; [reflexivity|]. unfold optimal_k in Hk. split; [|lia].
      rewrite <- (length_map scored), add_cluster_and_segment_scored; lia.
    + right. right. apply cluster_Raise in Ec. destruct Ec as [-> Hk].
      split; [reflexivity|]. split; [eauto|].
      destruct (score_rfm_columns table t Ht) as (_ & Hr & _).
      apply qcut_needs_two_rows in Hr. unfold recency_column in Hr.
      rewrite length_map in Hr. unfold optimal_k in Hk. lia.
  - right. left. rewrite Ht. auto.
Qed.

(** X18: with unique customer identifiers, a labelled table has one row per
    customer of the sales data, by increasing identifier; every row carries
    scores in 1..5, a cluster in 0..3 and the segment name of its scores. *)
Theorem segmentation_output
    (scaler : list point -> point -> point)
    (fit : list point -> point * point * point * point)
    (ts : list Transaction.row) (cs : list Customer.row) (ps : list Product.row)
    (rows : list segmented_row) :
  NoDup (map Customer.customer_id cs) ->
  segment_customers scaler fit ts cs ps = Ok rows ->
  StronglySorted Z.lt (map (fun s => rfm_customer_id (base (scored s))) rows) /\
  (forall c, In c (map customer_id (sales_data ts cs ps)) <->
             In c (map (fun s => rfm_customer_id (base (scored s))) rows)) /\
  forall s, In s rows ->
    segment_name s = assign_segment_name (scored s) /\
    In (segment_name s) segment_labels /\
    0 <= cluster_label s < 4 /\
    1 <= r_score (scored s) <= 5 /\
    1 <= f_score (scored s) <= 5 /\
    1 <= m_score (scored s) <= 5.
Proof.
  intros Hnd. unfold segment_customers.
  set (table := rfm (sales_data ts cs ps) cs).
  destruct (score_rfm table) as [t|e] eqn:Ht; cbn [bind]; [|discriminate].
  destruct (cluster scaler fit t) as [labels|e] eqn:Ec; cbn [bind]; [|discriminate].
  intros E. inversion E; subst rows. clear E.
  apply cluster_Ok in Ec. destruct Ec as (_ & Hlen & Hlab).
  assert (Hids : map (fun s => rfm_customer_id (base (scored s)))
                     (add_cluster_and_segment t labels)
                 = group_keys Z.eqb Z.leb customer_id (sales_data ts cs ps)).
  { rewrite <- (map_map scored (fun s => rfm_customer_id (base s))).
    rewrite (add_cluster_and_segment_scored t labels Hlen).
    rewrite <- (map_map base rfm_customer_id), (scored_base table t Ht).
    unfold table, rfm_customer_id. rewrite <- (map_map metrics m_customer_id).
    rewrite (rfm_metrics_column ts cs ps Hnd). apply rfm_groupby_keys. }
  rewrite Hids. split; [apply group_keys_Z_increasing|]. split.
  - intros c. symmetry. apply (group_keys_In _ _ _ Zeqb_eq_iff).
  - intros s Hs.
    assert (Hsc : In (scored s) t).
    { rewrite <- (add_cluster_and_segment_scored t labels Hlen). now apply in_map. }
    unfold add_cluster_and_segment in Hs. apply in_map_iff in Hs.
    destruct Hs as ([row l] & <- & Hin). cbn in *.
    split; [reflexivity|]. split; [apply assign_segment_name_total|].
    split.
    + rewrite Forall_forall in Hlab. apply Hlab. now apply in_combine_r in Hin.
    + exact (scores_in_range table t Ht row Hsc).
Qed.

Lemma segmentation_output_witness :
  NoDup (map Customer.customer_id tied_customers) /\
  exists rows,
    segment_customers identity_scaler first_four
      tied_transactions tied_customers sample_products = Ok rows /\
    map (fun s => rfm_customer_id (base (scored s))) rows = tied_ids /\
    StronglySorted Z.lt (map (fun s => rfm_customer_id (base (scored s))) rows).
Proof.
  assert (Hnd : NoDup (map Customer.customer_id tied_customers)).
  { apply (NoDup_map_inv (fun z => z)). rewrite map_id.
    vm_compute. repeat constructor; simpl; intuition discriminate. }
  split; [exact Hnd|].
  destruct (segment_customers identity_scaler first_four
              tied_transactions tied_customers sample_products) as [rows|e] eqn:E;
    [|vm_compute in E; discriminate].
  exists rows. split; [reflexivity|].
  split.
  - apply (f_equal (fun r => match r with
                             | Ok rows => map (fun s => rfm_customer_id (base (scored s))) rows
                             | Raise _ => []
                             end)) in E.
    rewrite <- E. vm_compute. reflexivity.
  - exact (proj1 (segmentation_output identity_scaler first_four tied_transactions
                    tied_customers sample_products rows Hnd E)).
Defined.

(** ** Rows of the category and segment tables *)

Lemma Zsum_perm (l l' : list Z) : Permutation l l' -> Zsum l = Zsum l'.
Proof.
  induction 1 as [|x l l' _ IH|x y l|l l' l'' _ IH1 _ IH2]; simpl; lia.
Qed.

Lemma wrap_int64_range (z : Z) : - 2 ^ 63 <= wrap_int64 z < 2 ^ 63.
Proof.
  unfold wrap_int64.
  pose proof (Z.mod_pos_bound (z + 2 ^ 63) (2 ^ 64) eq_refl). lia.
Qed.

(** Wrapping the terms of a sum does not change the wrapped sum. *)
Lemma wrap_int64_Zsum (l : list Z) :
  wrap_int64 (Zsum (map wrap_int64 l)) = wrap_int64 (Zsum l).
Proof.
  assert (H : forall a b, wrap_int64 (wrap_int64 a + b) = wrap_int64 (a + b)).
  { intros a b. unfold wrap_int64. f_equal.
    replace ((a + 2 ^ 63) mod 2 ^ 64 - 2 ^ 63 + b + 2 ^ 63)
      with ((a + 2 ^ 63) mod 2 ^ 64 + b) by lia.
    replace (a + b + 2 ^ 63) with (a + 2 ^ 63 + b) by lia.
    now rewrite Zplus_mod_idemp_l. }
  induction l as [|a t IH]; [reflexivity|]. cbn [map Zsum fold_right].
  fold (Zsum (map wrap_int64 t)). fold (Zsum t).
  rewrite H. rewrite (Z.add_comm a (Zsum (map wrap_int64 t))).
  rewrite <- H, IH, H. f_equal. lia.
Qed.

(** X19: the category table has one row per product category of the sales data
    that is not read as missing; its transaction counts add up to the
    number of joined rows of those categories, and its quantities, each an
    int64, add up in int64 arithmetic to the int64 sum of their quantities
    (the sums agree modulo 2^64, a sum out of range wraps around). *)
Theorem category_performance_rows
    (group_sum group_mean : list Q -> float) (sales : list sales_row) :
  NoDup (map category (category_performance group_sum group_mean sales)) /\
  (forall k, In k (map category (category_performance group_sum group_mean sales))
             <-> In k (map product_category sales) /\ isna k = false) /\
  Zsum (map transaction_count (category_performance group_sum group_mean sales))
  = Z.of_nat (length (dropna product_category sales)) /\
  (forall row, In row (category_performance group_sum group_mean sales) ->
     - 2 ^ 63 <= total_quantity row < 2 ^ 63) /\
  wrap_int64
    (Zsum (map total_quantity (category_performance group_sum group_mean sales)))
  = wrap_int64 (Zsum (map quantity (dropna product_category sales))).
Proof.
  split; [|split; [|split; [|split]]].
  - unfold category_performance.
    eapply Permutation_NoDup;
      [apply Permutation_sym, Permutation_map, sort_by_perm|].
    rewrite map_map. cbn [category category_agg].
    rewrite (groupby_keys String.eqb String.leb product_category).
    apply (group_keys_NoDup _ _ _ String_eqb_eq_iff).
  - intros k. rewrite in_map_iff. split.
    + intros (row & <- & H). apply category_performance_In in H.
      destruct H as (k & Hk & Hn & ->). now split.
    + intros [Hk Hn].
      exists (category_agg group_sum group_mean
                (k, filter (fun s => String.eqb (product_category s) k) sales)).
      split; [reflexivity|]. apply category_performance_In. exists k. auto.
  - unfold category_performance.
    rewrite (Zsum_perm _ _ (Permutation_map transaction_count (sort_by_perm _ _))).
    rewrite map_map. cbn [transaction_count category_agg].
    apply (group_sizes _ _ _ String_eqb_eq_iff).
  - intros row H. apply category_performance_In in H.
    destruct H as (k & _ & _ & ->). cbn [total_quantity category_agg].
    apply wrap_int64_range.
  - unfold category_performance.
    rewrite (Zsum_perm _ _ (Permutation_map total_quantity (sort_by_perm _ _))).
    rewrite map_map. cbn [total_quantity category_agg].
    rewrite <- (map_map (fun g => Zsum (map quantity (snd g))) wrap_int64).
    rewrite wrap_int64_Zsum. f_equal.
    unfold groupby. rewrite map_map. cbn [snd].
    apply (Zsum_groups String.eqb String.leb product_category String_eqb_eq_iff).
    + apply (group_keys_NoDup _ _ _ String_eqb_eq_iff).
    + intros r Hr. apply (group_keys_In _ _ _ String_eqb_eq_iff). now apply in_map.
Qed.

(** A product whose category is the text None is left out of the table, and
    two quantities of 2^62 add up to -2^63. *)
Example category_rows_left_out :
  map (fun c => (category c, transaction_count c, total_quantity c))
      (category_performance column_sum column_mean unnamed_sales)
  = [("Books", 1, 2)] /\
  length unnamed_sales = 3%nat /\
  map (fun c => (category c, total_quantity c))
      (category_performance column_sum column_mean bulk_sales)
  = [("Books", - 2 ^ 63)].
Proof. vm_compute. repeat split; reflexivity. Qed.

Lemma rint_range (q : Q) (n : Z) :
  (0 <= q <= inject_Z n)%Q -> 0 <= rint q <= n.
Proof.
  intros [H0 Hn]. pose proof (rint_error q) as [H1 H2].
  split.
  - assert (H : (inject_Z (-1) < inject_Z (rint q))%Q)
      by (change (inject_Z (-1)) with (-1)%Q; lra).
    rewrite <- Zlt_Qlt in H. lia.
  - assert (H : (inject_Z (rint q) < inject_Z (n + 1))%Q)
      by (rewrite inject_Z_plus; change (inject_Z 1) with 1%Q; lra).
    rewrite <- Zlt_Qlt in H. lia.
Qed.

Lemma round_1_percentage (q : Q) : (0 <= q <= 100)%Q -> (0 <= round 1 q <= 100)%Q.
Proof.
  intros H. unfold round. cbv zeta.
  replace (inject_Z (10 ^ Z.of_nat 1)) with 10%Q by reflexivity.
  pose proof (rint_range (q * 10) 1000) as Hr.
  destruct Hr as [H0 H1]; [change (inject_Z 1000) with 1000%Q; split; lra|].
  rewrite Zle_Qle in H0, H1.
  change (inject_Z 0) with 0%Q in H0. change (inject_Z 1000) with 1000%Q in H1.
  unfold Qdiv. change (/ 10)%Q with (1 # 10)%Q. split; lra.
Qed.

(** X20: the segment profile has one row per segment name in use; its
    customer_count is the number of customers of that name, at least one,
    and its percentage lies between 0 and 100. *)
Theorem segment_profile_rows_in_use (t : list segmented_row) :
  NoDup (map segment (segment_profile t)) /\
  (forall name, In name (map segment (segment_profile t)) <->
                In name (map segment_name t)) /\
  forall p, In p (segment_profile t) ->
    customer_count p
    = count_if (fun s => String.eqb (segment_name s) (segment p)) t /\
    1 <= customer_count p <= Z.of_nat (length t) /\
    (0 <= percentage p <= 100)%Q.
Proof.
  assert (Hk : map segment (segment_profile t)
               = group_keys String.eqb String.leb segment_name t).
  { unfold segment_profile. rewrite map_map. cbn [segment profile_agg].
    apply groupby_keys. }
  split; [|split].
  - rewrite Hk. apply (group_keys_NoDup _ _ _ String_eqb_eq_iff).
  - intros name. rewrite Hk. apply (group_keys_In _ _ _ String_eqb_eq_iff).
  - intros p Hp. unfold segment_profile in Hp. apply in_map_iff in Hp.
    destruct Hp as ([name g] & <- & Hg).
    apply (groupby_In _ _ _ String_eqb_eq_iff) in Hg. destruct Hg as [Hn ->].
    cbn [customer_count segment percentage profile_agg fst snd].
    pose proof (group_nonempty String.eqb segment_name String_eqb_eq_iff t name Hn)
      as Hne.
    pose proof (filter_length_le (fun s => String.eqb (segment_name s) name) t) as Hle.
    set (g := filter (fun s => String.eqb (segment_name s) name) t) in *.
    assert (Hpos : (1 <= length g)%nat) by (destruct g; [congruence | simpl; lia]).
    split; [reflexivity|]. split; [lia|].
    apply round_1_percentage. apply ratio_range; lia.
Qed.

Lemma segment_profile_rows_in_use_witness :
  In at_risk_profile (segment_profile tied_segmented) /\
  customer_count at_risk_profile = 4 /\
  (0 <= percentage at_risk_profile <= 100)%Q.
Proof.
  assert (H : In at_risk_profile (segment_profile tied_segmented))
    by (vm_compute; left; reflexivity).
  split; [exact H|]. split; [reflexivity|].
  destruct (segment_profile_rows_in_use tied_segmented) as (_ & _ & Hrows).
  exact (proj2 (proj2 (Hrows _ H))).
Defined.

(** ** The nearest centre *)

Lemma nearest_from_spec (x : point) (seen rest : list point) (d0 : point)
    (best : nat) :
  (best < length seen)%nat ->
  (forall c, In c seen -> (sq_dist x (nth best seen d0) <= sq_dist x c)%Q) ->
  let r := nearest_from x rest (length seen) best (sq_dist x (nth best seen d0)) in
  (r < length (seen ++ rest))%nat /\
  forall c, In c (seen ++ rest) ->
            (sq_dist x (nth r (seen ++ rest) d0) <= sq_dist x c)%Q.
Proof.
  revert seen best. induction rest as [|c0 rest IH]; intros seen best Hb Hmin.
  - cbn [nearest_from]. rewrite app_nil_r. auto.
  - cbn [nearest_from]. cbv zeta.
    assert (Eapp : (seen ++ [c0]) ++ rest = seen ++ c0 :: rest)
      by (now rewrite <- app_assoc).
    assert (Elen : length (seen ++ [c0]) = S (length seen))
      by (rewrite length_app; simpl; lia).
    destruct (Qlt_bool (sq_dist x c0) (sq_dist x (nth best seen d0))) eqn:E.
    + apply Qlt_bool_iff in E.
      assert (En : nth (length seen) (seen ++ [c0]) d0 = c0)
        by (rewrite app_nth2, Nat.sub_diag; [reflexivity | lia]).
      pose proof (IH (seen ++ [c0]) (length seen)) as IH'.
      cbv zeta in IH'. rewrite En, Elen, Eapp in IH'. apply IH'; [lia|].
      intros c Hc. apply in_app_or in Hc.
      destruct Hc as [Hc|[<-|[]]]; [|apply Qle_refl].
      specialize (Hmin c Hc). lra.
    + apply Qlt_bool_false_iff in E.
      assert (En : nth best (seen ++ [c0]) d0 = nth best seen d0)
        by (now rewrite app_nth1).
      pose proof (IH (seen ++ [c0]) best) as IH'.
      cbv zeta in IH'. rewrite En, Elen, Eapp in IH'. apply IH'; [lia|].
      intros c Hc. apply in_app_or in Hc.
      destruct Hc as [Hc|[<-|[]]]; [now apply Hmin | exact E].
Qed.

Lemma nearest_spec (x c0 : point) (others : list point) :
  (nearest x c0 others < length (c0 :: others))%nat /\
  forall c, In c (c0 :: others) ->
            (sq_dist x (nth (nearest x c0 others) (c0 :: others) c0)
             <= sq_dist x c)%Q.
Proof.
  unfold nearest.
  assert (H0 : (0 < length [c0])%nat) by (simpl; lia).
  assert (Hmin : forall c, In c [c0] ->
            (sq_dist x (nth 0 [c0] c0) <= sq_dist x c)%Q)
    by (intros c [<-|[]]; apply Qle_refl).
  exact (nearest_from_spec x [c0] others c0 0%nat H0 Hmin).
Qed.

(** X21: every label names a centre that is at least as close to the customer's
    scaled features as each of the four centres. *)
Theorem cluster_labels_nearest
    (scaler : list point -> point -> point)
    (fit : list point -> point * point * point * point)
    (t : list scored_row) (labels : list Z) (i : nat) (l : Z) :
  cluster scaler fit t = Ok labels -> nth_error labels i = Some l ->
  let X := features t in
  let X_scaled := map (scaler X) X in
  let centres :=
    let '(c0, c1, c2, c3) := fit X_scaled in [c0; c1; c2; c3] in
  exists x, nth_error X_scaled i = Some x /\
            0 <= l < 4 /\
            forall c, In c centres ->
              (sq_dist x (nth (Z.to_nat l) centres (0, 0, 0)%Q) <= sq_dist x c)%Q.
Proof.
  intros H Hi X X_scaled centres.
  unfold cluster, fit_predict in H. fold X in H. fold X_scaled in H.
  destruct (length X_scaled <? optimal_k)%nat; [discriminate|].
  unfold centres. destruct (fit X_scaled) as [[[c0 c1] c2] c3].
  inversion H; subst labels. clear H.
  rewrite nth_error_map in Hi.
  destruct (nth_error X_scaled i) as [x|]; [|discriminate].
  simpl in Hi. inversion Hi; subst l. clear Hi.
  exists x. split; [reflexivity|].
  destruct (nearest_spec x c0 [c1; c2; c3]) as [Hlt Hmin]. simpl in Hlt.
  split; [lia|]. rewrite Nat2Z.id.
  intros c Hc. specialize (Hmin c Hc).
  rewrite (nth_indep _ (0, 0, 0)%Q c0) by (simpl; lia). exact Hmin.
Qed.

Lemma cluster_labels_nearest_witness :
  cluster identity_scaler first_four sample_scored = Ok [0; 1; 2; 3; 3] /\
  exists x, nth_error (features sample_scored) 4 = Some x /\
            (sq_dist x (nth 3 (features sample_scored) (0, 0, 0)%Q)
             <= sq_dist x (nth 0 (features sample_scored) (0, 0, 0)%Q))%Q.
Proof.
  assert (Hc : cluster identity_scaler first_four sample_scored = Ok [0; 1; 2; 3; 3])
    by (vm_compute; reflexivity).
  split; [exact Hc|].
  destruct (cluster_labels_nearest identity_scaler first_four sample_scored
              [0; 1; 2; 3; 3] 4 3 Hc eq_refl) as (x & Hx & _ & Hmin).
  exists x. split; [exact Hx|].
  apply Hmin. left. reflexivity.
Defined.
